(** * Rules engine of the battleship game server

    A shallow embedding of three source files of the game server:

    - [models/match.instance.ts]: the pairing of two players (module
      [MatchInstance]);
    - [validations.ts]: the validation of a ship placement payload and the
      loss predicate (module [Validations]);
    - [cloud-events/index.ts]: the outbound notifications (module
      [CloudEvents]).

    JavaScript values are modelled as the code uses them: strings as [string],
    an optional property as [option], integral numbers as [Z] with [NaN] made
    explicit where the code can produce it, arrays as lists that grow when
    written past their end, objects used as maps as association lists in key
    order, exceptions as the left summand of a result type. *)

From Stdlib Require Import ZArith Ascii String List Lia.
From stdpp Require Import base tactics option list numbers strings.

Local Open Scope string_scope.
Local Open Scope Z_scope.
Local Open Scope list_scope.

(** ** Players

    [models/player.ts] is not among the sources. The code under study only
    calls [getUUID] and [getShipPositionData] on a player. *)

(** One cell of a player's ship as the game loop records it. *)
Record CellData := { cell_origin : Z * Z; hit : bool }.

(** A ship of a player once its cells are tracked. *)
Record PlayerShip := { ship_type : string; cells : list CellData }.

(** Modelled from the spec: class [Player] of [models/player.ts] is missing;
    a player carries an identity and a hit record, which is absent until a
    placement was accepted. The hit record is an object keyed by ship type:
    an association list in key order. *)
Record Player := {
  player_uuid : string;
  player_ships : option (list (string * PlayerShip))
}.

Definition getUUID (p : Player) : string := player_uuid p.
Definition getShipPositionData (p : Player) := player_ships p.

(** ** models/match.instance.ts *)

Module MatchInstance.

(** The fields of the class; [playerB] is the optional one. [uuid] is the
    field of the base class [Model]. *)
Record t := Build {
  uuid : string;
  playerA : string;
  playerB : option string;
  ready : bool
}.

(** Modelled from the spec: the base class [Model] of [models/model.ts] is
    missing; its constructor keeps the identifier it is given and takes a
    generated one ([fresh]) otherwise. *)
Definition Model_uuid (fresh : string) (given : option string) : string :=
  default fresh given.

(** [constructor(playerA, playerB?, ready = false, uuid?)] *)
Definition new (fresh : string) (a : string) (b : option string)
    (rdy : option bool) (u : option string) : t :=
  {| uuid := Model_uuid fresh u;
     playerA := a;
     playerB := b;
     ready := default false rdy |}.

(** The plain data form of a match ([MatchInstanceData]). *)
Record Data := {
  d_uuid : string;
  d_ready : bool;
  d_playerA : string;
  d_playerB : option string
}.

(** [static from(data)] *)
Definition from (fresh : string) (d : Data) : t :=
  new fresh (d_playerA d) (d_playerB d) (Some (d_ready d)) (Some (d_uuid d)).

(** Truthiness of a string, and of an optional string: the empty string and
    [undefined] are falsy. *)
Definition truthy (s : string) : bool :=
  match s with EmptyString => false | _ => true end.

Definition truthy_opt (s : option string) : bool :=
  match s with Some s => truthy s | None => false end.

(** [addPlayer(player)]: the assignment to [playerB], then the guarded
    assignment to [ready]. *)
Definition addPlayer (m : t) (p : Player) : t :=
  let m1 := {| uuid := uuid m; playerA := playerA m;
               playerB := Some (getUUID p); ready := ready m |} in
  if truthy (playerA m1) && truthy_opt (playerB m1)
  then {| uuid := uuid m1; playerA := playerA m1;
          playerB := playerB m1; ready := true |}
  else m1.

(** [isJoinable()] *)
Definition isJoinable (m : t) : bool :=
  match playerB m with None => true | Some _ => false end.

(** [getPlayers()] *)
Definition getPlayers (m : t) : string * option string :=
  (playerA m, playerB m).

(** The error thrown by [getPlayerOpponentUUID]: it names the player and
    the match. *)
Inductive error := NotAssociated (player match_ : string).

(** [getPlayerOpponentUUID(player)] *)
Definition getPlayerOpponentUUID (m : t) (p : Player)
    : error + option string :=
  let playerUUID := getUUID p in
  if decide (playerUUID = playerA m) then inr (playerB m)
  else if decide (Some playerUUID = playerB m) then inr (Some (playerA m))
  else inl (NotAssociated playerUUID (uuid m)).

(** [toJSON()] *)
Definition toJSON (m : t) : Data :=
  {| d_uuid := uuid m; d_ready := ready m;
     d_playerA := playerA m; d_playerB := playerB m |}.

(** Both identity slots hold a value: [playerA] is a required field, so
    only the optional slot can be empty. *)
Definition both_present (m : t) : Prop := is_Some (playerB m).

(** The states the invariant of the specification ranges over: built by the
    constructor or by [from], then changed by [addPlayer]. *)
Inductive reachable : t → Prop :=
| reach_new fresh a b rdy u : reachable (new fresh a b rdy u)
| reach_from fresh d : reachable (from fresh d)
| reach_add m p : reachable m → reachable (addPlayer m p).

(** Starting states whose arguments already satisfy the equivalence and whose
    first identity is not empty, then joined by players with non-empty
    identifiers. *)
Inductive joined : t → Prop :=
| joined_new fresh a b rdy u :
    a ≠ "" → (default false rdy = true ↔ is_Some b) →
    joined (new fresh a b rdy u)
| joined_from fresh d :
    d_playerA d ≠ "" → (d_ready d = true ↔ is_Some (d_playerB d)) →
    joined (from fresh d)
| joined_add m p : joined m → getUUID p ≠ "" → joined (addPlayer m p).

End MatchInstance.

(** ** cloud-events/index.ts *)

Module CloudEvents.

(** [const source = 'battleship-wss'] *)
Definition source : string := "battleship-wss".

(** [const enum CloudEventType] *)
Inductive CloudEventType := Hit | Miss | Sink | Win | Lose | Bonus.

(** The string each member of the enumeration stands for. *)
Definition type_value (t : CloudEventType) : string :=
  match t with
  | Hit => "hit" | Miss => "miss" | Sink => "sink"
  | Win => "win" | Lose => "lose" | Bonus => "bonus"
  end.

(** [EventDataBase]; [origin] is the text [`${number},${number}`]. *)
Record EventDataBase := {
  ts : Z; by_ : string; game : string; match_ : string;
  against : string; origin : string
}.

(** [WinLoseEventData] *)
Record WinLoseEventData := {
  wl_game : string; wl_match : string; wl_player : string
}.

(** The payloads [sendEvent] is called with ([data: unknown]). *)
Inductive EventData :=
| ShotData (base : EventDataBase) (type : option string)
| WinLoseData (d : WinLoseEventData).

(** The [CloudEvent] built by [sendEvent]. *)
Record CloudEvent := {
  ce_type : string; ce_source : string; ce_data : EventData
}.

(** The process posts events to the broker and forgets them: the state is
    the sequence of events posted so far. A failed delivery is logged and
    changes nothing else. *)
Definition Outbox := list CloudEvent.

(** [sendEvent(type, data)] *)
Definition sendEvent (type : CloudEventType) (data : EventData)
    (out : Outbox) : Outbox :=
  out ++ [ {| ce_type := type_value type; ce_source := source;
              ce_data := data |} ].

(** [hit(data)]; [HitShotEventData] adds the ship type to the base. *)
Definition hit (base : EventDataBase) (type : string) : Outbox → Outbox :=
  sendEvent Hit (ShotData base (Some type)).

(** [miss(data)] *)
Definition miss (base : EventDataBase) : Outbox → Outbox :=
  sendEvent Miss (ShotData base None).

(** [sink(data)] *)
Definition sink (base : EventDataBase) (type : string) : Outbox → Outbox :=
  sendEvent Sink (ShotData base (Some type)).

(** [win(data)] *)
Definition win (data : WinLoseEventData) : Outbox → Outbox :=
  sendEvent Win (WinLoseData data).

(** [lose(data)]: the source passes [CloudEventType.Win] here. *)
Definition lose (data : WinLoseEventData) : Outbox → Outbox :=
  sendEvent Win (WinLoseData data).

(** [bonus()] has an empty body. *)
Definition bonus : Outbox → Outbox := λ out, out.

End CloudEvents.

(** ** validations.ts *)

Module Validations.

(** *** JavaScript numbers and arrays as the validator uses them *)

(** The numbers the validator computes with are integers or [NaN]. *)
Inductive jsnum := Num (z : Z) | NaN.

#[global] Instance jsnum_eq_dec : EqDecision jsnum.
Proof. solve_decision. Defined.

(** A slot of an array: [None] is a hole, which reads as [undefined]. *)
Abbreviation slot := (option jsnum).

(** A row of the grid is an array of numbers, and the grid an array of rows. *)
Abbreviation Row := (list slot).
Abbreviation Grid := (list (list slot)).

(** [v + 1] for what was read from a slot: [undefined + 1] and [NaN + 1]
    are [NaN]. *)
Definition plus1 (v : slot) : jsnum :=
  match v with Some (Num z) => Num (z + 1) | _ => NaN end.

(** [total + v] *)
Definition js_add (a b : jsnum) : jsnum :=
  match a, b with Num x, Num y => Num (x + y) | _, _ => NaN end.

(** [val > 1]: false for [NaN] and [undefined]. *)
Definition gt1 (v : slot) : bool :=
  match v with Some (Num z) => 1 <? z | _ => false end.

(** [val !== 0] *)
Definition nonzero (v : slot) : bool :=
  match v with Some (Num 0) => false | _ => true end.

(** [parseInt] on a text that starts with decimal digits: the digits are
    read up to the first other character, and a text without a leading digit
    gives [NaN]. Leading blanks, signs and radix prefixes are left out: the
    texts parsed here are the halves of a [CellArea]. *)
Definition digit_of (c : ascii) : option Z :=
  let n := Z.of_N (Ascii.N_of_ascii c) in
  if (48 <=? n) && (n <=? 57) then Some (n - 48) else None.

Fixpoint parse_digits (s : string) (acc : jsnum) : jsnum :=
  match s with
  | EmptyString => acc
  | String c rest =>
      match digit_of c with
      | Some d =>
          parse_digits rest
            (Num (match acc with Num a => 10 * a + d | NaN => d end))
      | None => acc
      end
  end.

Definition parseInt (s : string) : jsnum := parse_digits s NaN.

(** [s.split('x')[0]]: the text before the first ["x"]. *)
Fixpoint before_x (s : string) : string :=
  match s with
  | EmptyString => EmptyString
  | String c rest =>
      if Ascii.eqb c "x"%char then EmptyString else String c (before_x rest)
  end.

(** *** The types of the module *)

(** [enum Orientation]: the two string values. *)
Definition Vertical : string := "vertical".
Definition Horizontal : string := "horizontal".

(** [enum ShipType] *)
Inductive ShipType := Battleship | Destroyer | Submarine.

#[global] Instance ShipType_eq_dec : EqDecision ShipType.
Proof. solve_decision. Defined.

Definition ShipType_value (t : ShipType) : string :=
  match t with
  | Battleship => "Battleship"
  | Destroyer => "Destroyer"
  | Submarine => "Submarine"
  end.

(** The members in declaration order, which is the key order of [ShipSize]
    and of the schema. *)
Definition ship_types : list ShipType := [Battleship; Destroyer; Submarine].

(** [enum CellArea] *)
Inductive CellArea := A4x1 | A3x1 | A2x1 | A1x1.

Definition CellArea_value (a : CellArea) : string :=
  match a with
  | A4x1 => "4x1" | A3x1 => "3x1" | A2x1 => "2x1" | A1x1 => "1x1"
  end.

(** [ShipData]: [origin] is an array of numbers, at run time of any length
    before the schema has passed; [orientation] is a string. The numbers of
    a payload are integers here, as the cell positions of the game are. *)
Record ShipData := { origin : list Z; orientation : string }.

(** A placement payload: an object from keys to ship data, as the list of
    its entries in key order (the order [Object.keys] yields). The keys of an
    object are pairwise distinct. *)
Abbreviation Payload := (list (string * ShipData)).

Definition keys (p : Payload) : list string := p.*1.

(** [payload[key]] *)
Fixpoint get (k : string) (p : Payload) : option ShipData :=
  match p with
  | [] => None
  | (k', v) :: rest => if decide (k = k') then Some v else get k rest
  end.

(** [const ShipSize] *)
Definition ShipSize (t : ShipType) : CellArea :=
  match t with
  | Battleship => A4x1
  | Destroyer => A3x1
  | Submarine => A2x1
  end.

(** The ship type a key is the value of, if any. *)
Definition ShipType_of (k : string) : option ShipType :=
  snd <$> list_find (λ t, ShipType_value t = k) ship_types.

(** [ShipSize[key]] for a key that is any string: [undefined] unless the key
    is the value of a ship type. *)
Definition ShipSize_at (k : string) : option CellArea :=
  ShipSize <$> ShipType_of k.

(** [const EXPECTED_OCCUPIED_SQUARES]: the reduction over
    [Object.values(ShipSize)]. *)
Definition EXPECTED_OCCUPIED_SQUARES : jsnum :=
  foldl (λ total v, js_add total (parseInt (before_x (CellArea_value v))))
    (Num 0) (ShipSize <$> ship_types).

(** Modelled from the spec: [getCellAreaWidthAndHeight] of [utils.ts] is
    missing; its [x] is the fixed linear length of the ship, the number before
    the ["x"] of the area, read as [EXPECTED_OCCUPIED_SQUARES] reads it. *)
Definition getCellAreaWidthAndHeight_x (a : CellArea) : jsnum :=
  parseInt (before_x (CellArea_value a)).

(** *** The schema

    [Joi] is a library; what follows is its behaviour on the two schemas of
    the module under the options of the call ([abortEarly: false],
    [allowUnknown: false]): every rule that fails adds an item to the details
    of the error, which is raised when there is at least one item. *)

Inductive vcode :=
| any_required | object_unknown | array_min | array_max
| number_min | number_max | number_unsafe | string_empty.

Inductive pathseg := Key (k : string) | Idx (i : nat).

(** One item of the details of a [ValidationError]. *)
Record violation := { v_path : list pathseg; v_code : vcode }.

#[global] Instance vcode_eq_dec : EqDecision vcode.
Proof. solve_decision. Defined.
#[global] Instance pathseg_eq_dec : EqDecision pathseg.
Proof. solve_decision. Defined.
#[global] Instance violation_eq_dec : EqDecision violation.
Proof. solve_decision. Defined.

Definition MAX_SAFE_INTEGER : Z := 9007199254740991.

(** [orientation: Joi.string().allow(Vertical, Horizontal).required()]:
    [allow] adds the two values to what a string schema accepts and excludes
    nothing; a string schema refuses the empty string alone. *)
Definition orientation_schema (path : list pathseg) (s : string)
    : list violation :=
  if bool_decide (s ∈ [Vertical; Horizontal]) then []
  else if bool_decide (s = "") then
    [ {| v_path := path; v_code := string_empty |} ]
  else [].

Section Grid.

(** [GAME_GRID_SIZE] of [config.ts], which is not among the sources. *)
Variable GAME_GRID_SIZE : Z.

(** [Joi.number().min(0).max(GAME_GRID_SIZE - 1)]: a number outside the safe
    integers fails the base check, which ends the checks of that value; the
    two rules are checked one after the other. *)
Definition number_schema (path : list pathseg) (z : Z) : list violation :=
  if (MAX_SAFE_INTEGER <? z) || (z <? - MAX_SAFE_INTEGER) then
    [ {| v_path := path; v_code := number_unsafe |} ]
  else
    (if z <? 0 then [ {| v_path := path; v_code := number_min |} ] else [])
    ++ (if GAME_GRID_SIZE - 1 <? z
        then [ {| v_path := path; v_code := number_max |} ] else []).

(** [origin: Joi.array().min(2).max(2).items(...).required()]: the items are
    checked first, each under its index, then the two length rules. *)
Definition origin_schema (path : list pathseg) (o : list Z)
    : list violation :=
  concat (imap (λ i z, number_schema (path ++ [Idx i]) z) o)
  ++ (if (length o <? 2)%nat
      then [ {| v_path := path; v_code := array_min |} ] else [])
  ++ (if (2 <? length o)%nat
      then [ {| v_path := path; v_code := array_max |} ] else []).

(** [const ShipSchema] *)
Definition ShipSchema (path : list pathseg) (s : ShipData) : list violation :=
  origin_schema (path ++ [Key "origin"]) (origin s)
  ++ orientation_schema (path ++ [Key "orientation"]) (orientation s).

(** [const ShipsLockedSchema]: the three required keys in the order of the
    schema, then the keys of the payload the schema does not know. *)
Definition ShipsLockedSchema (p : Payload) : list violation :=
  concat ((λ t,
    let k := ShipType_value t in
    match get k p with
    | None => [ {| v_path := [Key k]; v_code := any_required |} ]
    | Some s => ShipSchema [Key k] s
    end) <$> ship_types)
  ++ ((λ k, {| v_path := [Key k]; v_code := object_unknown |})
      <$> filter (λ k, k ∉ ShipType_value <$> ship_types) (keys p)).

(** *** The grid *)


(** What [validateShipPlacement] can throw. [TypeError] is the error of the
    language for an element read on [undefined]. *)
Inductive error :=
| ValidationError (details : list violation)
| TypeError
| SizeNotANumber
| OverTheEdge
| Overlapping (j i : nat)
| OccupiedMismatch (occupied : Z) (expected : jsnum).

Definition res (A : Type) : Type := error + A.

Definition bind {A B} (r : res A) (f : A → res B) : res B :=
  match r with inl e => inl e | inr a => f a end.

Notation "x ← r ; k" := (bind r (λ x, k))
  (at level 20, r at level 100, k at level 200, only parsing).

(** [generateEmptyGridArray()]: every write of the two loops lands at the
    end of its array, so the result is N rows of N zeroes. *)
Definition generateEmptyGridArray : Grid :=
  replicate (Z.to_nat GAME_GRID_SIZE)
    (replicate (Z.to_nat GAME_GRID_SIZE) (Some (Num 0))).

(** [row[col] += 1] on one row. A negative [col] names a property that is not
    an element; inside the array the slot is replaced; past the end the array
    grows, with holes up to the new last slot. *)
Definition row_incr (col : Z) (row : Row) : Row :=
  if col <? 0 then row
  else
    let c := Z.to_nat col in
    match row !! c with
    | Some v => <[c := Some (plus1 v)]> row
    | None => row ++ replicate (c - length row) None ++ [Some NaN]
    end.

(** [grid[row][col] += 1]. An index that is not a number ([None]: [undefined]
    or [NaN]) is a property name: as a row it finds [undefined], whose element
    cannot be read; as a column it touches no slot. *)
Definition grid_incr (row col : option Z) (grid : Grid) : res Grid :=
  match row with
  | None => inl TypeError
  | Some r =>
      if r <? 0 then inl TypeError
      else
        match grid !! Z.to_nat r with
        | None => inl TypeError
        | Some _ =>
            match col with
            | None => inr grid
            | Some c => inr (alter (row_incr c) (Z.to_nat r) grid)
            end
        end
  end.

(** The cell the loop of [populateGridWithShipData] writes at step [i], as
    (row, col). *)
Definition cell_at (ship : ShipData) (i : Z) : option Z * option Z :=
  let rootX := origin ship !! 0%nat in
  let rootY := origin ship !! 1%nat in
  if decide (orientation ship = Horizontal)
  then (rootY, (λ x, x + i) <$> rootX)
  else ((λ y, y + i) <$> rootY, rootX).

(** The [for] loop of [populateGridWithShipData] over its steps. *)
Fixpoint populate_loop (ship : ShipData) (steps : list Z) (grid : Grid)
    : res Grid :=
  match steps with
  | [] => inr grid
  | i :: rest =>
      g ← grid_incr (cell_at ship i).1 (cell_at ship i).2 grid;
      populate_loop ship rest g
  end.

(** [populateGridWithShipData(size, ship, grid)] *)
Definition populateGridWithShipData (size : jsnum) (ship : ShipData)
    (grid : Grid) : res Grid :=
  match size with
  | NaN => inl SizeNotANumber
  | Num n => populate_loop ship (seqZ 0 n) grid
  end.

(** The body of the [forEach] over the keys of the payload, then the
    [forEach] itself. A key without a size, or without ship data, ends in a
    read on [undefined]. *)
Definition populate_key (p : Payload) (k : string) (grid : Grid) : res Grid :=
  match ShipSize_at k, get k p with
  | Some a, Some ship =>
      populateGridWithShipData (getCellAreaWidthAndHeight_x a) ship grid
  | _, _ => inl TypeError
  end.

Fixpoint populate_keys (p : Payload) (ks : list string) (grid : Grid)
    : res Grid :=
  match ks with
  | [] => inr grid
  | k :: rest => g ← populate_key p k grid; populate_keys p rest g
  end.

(** The inner loop of the check over one row: [j] is the column reached and
    [occ] is [occupiedSquares]. *)
Fixpoint scan_row (i j : nat) (row : Row) (occ : Z) : res Z :=
  match row with
  | [] => inr occ
  | val :: rest =>
      if gt1 val then inl (Overlapping j i)
      else scan_row i (S j) rest (if nonzero val then occ + 1 else occ)
  end.

(** The outer loop of the check: [i] is the row reached. *)
Fixpoint scan_grid (i : nat) (grid : Grid) (occ : Z) : res Z :=
  match grid with
  | [] => inr occ
  | row :: rest =>
      if decide (Z.of_nat (length row) = GAME_GRID_SIZE) then
        occ' ← scan_row i 0 row occ; scan_grid (S i) rest occ'
      else inl OverTheEdge
  end.

(** [validateShipPlacement(placementData)] *)
Definition validateShipPlacement (placementData : Payload) : res Payload :=
  match ShipsLockedSchema placementData with
  | (_ :: _) as errors => inl (ValidationError errors)
  | [] =>
      grid ← populate_keys placementData (keys placementData)
                generateEmptyGridArray;
      occupiedSquares ← scan_grid 0 grid 0;
      if decide (Num occupiedSquares = EXPECTED_OCCUPIED_SQUARES)
      then inr placementData
      else inl (OccupiedMismatch occupiedSquares EXPECTED_OCCUPIED_SQUARES)
  end.

End Grid.

(** [isGameOverForPlayer(player)] *)
Definition isGameOverForPlayer (player : Player) : bool :=
  match getShipPositionData player with
  | None => false
  | Some shipPositions =>
      forallb (λ c, Bool.eqb (hit c) true)
        (concat ((λ s, cells s) <$> shipPositions.*2))
  end.

End Validations.

(** * The vocabulary of the statements

    Sample values, and the notions the properties below are stated with:
    the cells a ship covers, the cells two ships share, the grid seen row by
    row. *)

Module MatchSamples.
Import MatchInstance.

(** A match opened by alice, and two players who may join it. *)
Definition alice_alone : t := new "m-1" "alice" None None None.
Definition bob : Player := {| player_uuid := "bob"; player_ships := None |}.
Definition carol : Player := {| player_uuid := "carol"; player_ships := None |}.

End MatchSamples.

Module Vocabulary.
Import Validations.

(** All the cells of a hit record. *)
Definition all_cells (ships : list (string * PlayerShip)) : list CellData :=
  concat ((λ s, cells s) <$> ships.*2).

(** A player whose three ships are recorded without any cell. *)
Definition no_cells : Player :=
  {| player_uuid := "alice";
     player_ships := Some [
       ("Battleship", {| ship_type := "Battleship"; cells := [] |});
       ("Destroyer", {| ship_type := "Destroyer"; cells := [] |});
       ("Submarine", {| ship_type := "Submarine"; cells := [] |}) ] |}.

(** The row after the increments at the columns [cl], in order. *)
Definition row_fold (cl : list Z) (row : Row) : Row :=
  foldl (λ row c, row_incr c row) row cl.

(** How many of the columns [cl] are column [j]. *)
Definition hits (j : nat) (cl : list Z) : Z :=
  Z.of_nat (length (filter (λ c, c = Z.of_nat j) cl)).

(** The number of slots of a row that the check counts as occupied. *)
Definition nz (row : Row) : Z :=
  Z.of_nat (length (filter (λ v, nonzero v = true) row)).

(** The increments at the cells [cs], given as (row, column), in order,
    stopping at the first that fails. *)
Fixpoint incr_all (cs : list (Z * Z)) (g : Grid) : res Grid :=
  match cs with
  | [] => inr g
  | rc :: rest => bind (grid_incr (Some rc.1) (Some rc.2) g) (incr_all rest)
  end.

(** The columns of the cells of [cs] that lie in row [i], in order. *)
Definition cols (i : nat) (cs : list (Z * Z)) : list Z :=
  snd <$> filter (λ rc, rc.1 = Z.of_nat i) cs.

(** The number of occupied slots of a grid. *)
Definition nz_grid (g : Grid) : Z := foldr (λ row acc, nz row + acc) 0 g.

(** The fixed length of a ship. *)
Definition ship_length (t : ShipType) : Z :=
  match t with Battleship => 4 | Destroyer => 3 | Submarine => 2 end.

(** The ship of type [t] placed as [s] covers the cell in row [r] and column
    [c]: from its origin, up to its length minus one further along the
    columns when it is horizontal and along the rows otherwise. *)
Definition covers (t : ShipType) (s : ShipData) (r c : Z) : Prop :=
  ∃ x y, origin s = [x; y]
    ∧ if decide (orientation s = Horizontal)
      then r = y ∧ x ≤ c ≤ x + ship_length t - 1
      else c = x ∧ y ≤ r ≤ y + ship_length t - 1.

(** The cells the loop of [populateGridWithShipData] visits, as (row,
    column), in order. *)
Definition ship_cells (t : ShipType) (s : ShipData) : list (Z * Z) :=
  match origin s with
  | [x; y] =>
      (λ i, if decide (orientation s = Horizontal)
            then (y, x + i) else (y + i, x)) <$> seqZ 0 (ship_length t)
  | _ => []
  end.

(** The cells of all the entries of a payload, in key order. *)
Definition cells_of (p : Payload) : list (Z * Z) :=
  concat ((λ e, match ShipType_of e.1 with
                | Some t => ship_cells t e.2
                | None => []
                end) <$> p).

(** How many times a cell occurs in a list of cells. *)
Definition cover (cs : list (Z * Z)) (rc : Z * Z) : nat :=
  length (filter (λ x, x = rc) cs).

(** The entries [q] are entries of the object [p] that name ship types and
    have an origin of two numbers. *)
Definition placed_in (p q : Payload) : Prop :=
  ∀ k s, (k, s) ∈ q →
    get k p = Some s ∧ (∃ t, k = ShipType_value t) ∧ ∃ x y, origin s = [x; y].

(** The payloads the schema accepts: the keys are the three ship types, each
    entry has an origin of two numbers within the board and an orientation
    that is not the empty string. *)
Definition well_shaped (N : Z) (p : Payload) : Prop :=
  (∀ k, k ∈ keys p ↔ ∃ t, k = ShipType_value t)
  ∧ ∀ k s, (k, s) ∈ p →
      ∃ x y, origin s = [x; y] ∧ 0 ≤ x ≤ N - 1 ∧ 0 ≤ y ≤ N - 1
             ∧ orientation s ≠ "".

(** The empty row: N zeroes. *)
Definition zero_row (N : Z) : Row := replicate (Z.to_nat N) (Some (Num 0)).

(** The sum of [f k], ..., [f (k + n - 1)]. *)
Fixpoint sumf (f : nat → Z) (k n : nat) : Z :=
  match n with O => 0 | S n => f k + sumf f (S k) n end.

(** Two ships of different types placed by the payload cover the cell. *)
Definition shared (p : Payload) (rc : Z * Z) : Prop :=
  ∃ t t' s s', t ≠ t'
    ∧ (ShipType_value t, s) ∈ p ∧ (ShipType_value t', s') ∈ p
    ∧ covers t s rc.1 rc.2 ∧ covers t' s' rc.1 rc.2.

(** The payload holds exactly one placement per ship type. (That no key
    occurs twice is a property of every object.) *)
Definition one_per_type (p : Payload) : Prop :=
  ∀ k, k ∈ keys p ↔ ∃ t, k = ShipType_value t.

(** Every origin is a pair of numbers within the board and every orientation
    is one of the two values of the enumeration. *)
Definition origins_in_board (N : Z) (p : Payload) : Prop :=
  ∀ k s, (k, s) ∈ p →
    ∃ x y, origin s = [x; y] ∧ 0 ≤ x ≤ N - 1 ∧ 0 ≤ y ≤ N - 1
           ∧ orientation s ∈ [Vertical; Horizontal].

(** Every cell a ship covers lies within the board. *)
Definition within_board (N : Z) (p : Payload) : Prop :=
  ∀ t s r c, (ShipType_value t, s) ∈ p → covers t s r c →
    0 ≤ r ≤ N - 1 ∧ 0 ≤ c ≤ N - 1.

(** No two ships share a cell. *)
Definition disjoint_ships (p : Payload) : Prop := ∀ rc, ¬ shared p rc.

(** The ships that are not horizontal end within the rows of the board. *)
Definition upright_within_rows (N : Z) (p : Payload) : Prop :=
  ∀ t s x y, (ShipType_value t, s) ∈ p → origin s = [x; y] →
    orientation s ≠ Horizontal → y + ship_length t - 1 ≤ N - 1.

(** No cell of the board in a row above row [y0] is shared by two ships. *)
Definition no_overlap_above (N : Z) (p : Payload) (y0 : Z) : Prop :=
  ∀ r c, shared p (r, c) → 0 ≤ c ≤ N - 1 → y0 ≤ r.

(** The ship data with origin [[x, y]] and orientation [o]. *)
Definition ship (x y : Z) (o : string) : ShipData :=
  {| origin := [x; y]; orientation := o |}.

(** Three ships side by side. *)
Definition placement_ok : Payload :=
  [ ("Battleship", ship 0 0 Horizontal);
    ("Destroyer", ship 0 1 Horizontal);
    ("Submarine", ship 0 2 Vertical) ].

(** The battleship reaches past the last column in row 5; the two others
    share cells in row 0. *)
Definition placement_edge_below_overlap : Payload :=
  [ ("Battleship", ship 8 5 Horizontal);
    ("Destroyer", ship 0 0 Horizontal);
    ("Submarine", ship 1 0 Horizontal) ].

(** The battleship reaches past the last column, alone in its row. *)
Definition placement_edge : Payload :=
  [ ("Battleship", ship 8 0 Horizontal);
    ("Destroyer", ship 0 1 Horizontal);
    ("Submarine", ship 0 2 Vertical) ].

(** The battleship reaches past the last row. *)
Definition placement_bottom : Payload :=
  [ ("Battleship", ship 0 8 Vertical);
    ("Destroyer", ship 1 0 Vertical);
    ("Submarine", ship 2 0 Vertical) ].


(** Destroyer and submarine cross at row 3, column 2. *)
Definition placement_crossing : Payload :=
  [ ("Battleship", ship 0 0 Horizontal);
    ("Destroyer", ship 1 3 Horizontal);
    ("Submarine", ship 2 2 Vertical) ].

(** The destroyer crosses the battleship at row 0, column 1, and the
    submarine at row 2, column 1. *)
Definition placement_two_crossings : Payload :=
  [ ("Battleship", ship 0 0 Horizontal);
    ("Destroyer", ship 1 0 Vertical);
    ("Submarine", ship 1 2 Horizontal) ].

(** An orientation that is neither of the two values. *)
Definition placement_diagonal : Payload :=
  [ ("Battleship", ship 0 0 "diagonal");
    ("Destroyer", ship 1 0 Vertical);
    ("Submarine", ship 2 0 Horizontal) ].

(** The battleship reaches past the last column in row 5; destroyer and
    submarine share cells of row 7, below. *)
Definition placement_edge_above_overlap : Payload :=
  [ ("Battleship", ship 8 5 Horizontal);
    ("Destroyer", ship 0 7 Horizontal);
    ("Submarine", ship 1 7 Horizontal) ].

(** Membership in a payload given by its entries, case by case. *)
Ltac entry H :=
  repeat (apply elem_of_cons in H as [H | H]; [simpl in H; simplify_eq |]);
  try (by apply elem_of_nil in H).

(** The bounds that [covers] states for a ship given by its data. *)
Ltac unfold_covers H :=
  destruct H as (? & ? & [= <- <-] & H); simpl in H.

End Vocabulary.

(** * The vocabulary of the further properties *)

Module MatchRuns.
Import MatchInstance.

(** The player with the identity [u], before any placement. *)
Definition player_of (u : string) : Player :=
  {| player_uuid := u; player_ships := None |}.

(** The calls [addPlayer(p)] for the players [ps], one after the other. *)
Definition join_all (m : t) (ps : list Player) : t := foldl addPlayer m ps.

End MatchRuns.

Module CloudRuns.
Import CloudEvents.

(** One call of a function the module exports. *)
Inductive call :=
| CallHit (base : EventDataBase) (type : string)
| CallMiss (base : EventDataBase)
| CallSink (base : EventDataBase) (type : string)
| CallWin (data : WinLoseEventData)
| CallLose (data : WinLoseEventData)
| CallBonus.

(** The effect of one call on the events posted. *)
Definition perform (c : call) : Outbox → Outbox :=
  match c with
  | CallHit base type => hit base type
  | CallMiss base => miss base
  | CallSink base type => sink base type
  | CallWin data => win data
  | CallLose data => lose data
  | CallBonus => bonus
  end.

(** The calls [cs], one after the other. *)
Definition perform_all (cs : list call) (out : Outbox) : Outbox :=
  foldl (λ o c, perform c o) out cs.

(** The calls that post an event: all but [bonus]. *)
Definition posts (c : call) : bool :=
  match c with CallBonus => false | _ => true end.

End CloudRuns.

Module ValidationRuns.
Import Validations Vocabulary.

(** A ship that is not horizontal reaches past the last row of the board. *)
Definition reaches_below (N : Z) (p : Payload) : Prop :=
  ∃ t s x y, (ShipType_value t, s) ∈ p ∧ origin s = [x; y]
    ∧ orientation s ≠ Horizontal ∧ N - 1 < y + ship_length t - 1.

(** A horizontal ship reaches past the last column of the board. *)
Definition reaches_right (N : Z) (p : Payload) : Prop :=
  ∃ t s x y, (ShipType_value t, s) ∈ p ∧ origin s = [x; y]
    ∧ orientation s = Horizontal ∧ N - 1 < x + ship_length t - 1.

(** The steps after the schema has passed, with the population written as
    the increments at the cells of the ships. *)
Definition check_cells (N : Z) (p : Payload) : res Payload :=
  bind (incr_all (cells_of p) (generateEmptyGridArray N)) (λ grid,
  bind (scan_grid N 0 grid 0) (λ occupiedSquares,
    if decide (Num occupiedSquares = EXPECTED_OCCUPIED_SQUARES)
    then inr p
    else inl (OccupiedMismatch occupiedSquares EXPECTED_OCCUPIED_SQUARES))).

End ValidationRuns.

(** * Properties *)

(** Membership in the concatenation of lists, for stdpp's [∈]. *)
Lemma elem_of_concat {A} (x : A) (ls : list (list A)) :
  x ∈ concat ls ↔ ∃ l, x ∈ l ∧ l ∈ ls.
Proof.
  rewrite list_elem_of_In, in_concat. split.
  - intros (l & Hl & Hx). exists l. by rewrite !list_elem_of_In.
  - intros (l & Hx & Hl). exists l. by rewrite <- !list_elem_of_In.
Qed.

(** ** The match *)

Module MatchInstanceFacts.
Import MatchInstance MatchSamples.

(** C6, as the specification states it, fails on a state of the
    constructor, which takes the readiness as an argument of its own: two
    identities with the default readiness give a match that is not ready. *)
Lemma both_present_not_ready :
  let m := new "m-1" "alice" (Some "bob") None None in
  reachable m ∧ both_present m ∧ ready m = false.
Proof.
  simpl. split; [apply reach_new |]. split; [by eexists | reflexivity].
Qed.

(** [from] copies the readiness of the data: ready with one identity. *)
Lemma from_ready_alone :
  let m := from "m-1" {| d_uuid := "m-7"; d_ready := true;
                         d_playerA := "alice"; d_playerB := None |} in
  reachable m ∧ ready m = true ∧ ¬ both_present m.
Proof.
  simpl. split; [apply reach_from |]. split; [reflexivity |].
  intros [b Hb]. discriminate Hb.
Qed.

Lemma truthy_nonempty s : s ≠ "" → truthy s = true.
Proof. by destruct s. Qed.

(** After [addPlayer] with non-empty identities the match is ready. *)
Lemma addPlayer_ready m p :
  playerA m ≠ "" → getUUID p ≠ "" → ready (addPlayer m p) = true.
Proof.
  intros Ha Hp. unfold addPlayer. cbn [playerA playerB truthy_opt].
  rewrite (truthy_nonempty _ Ha), (truthy_nonempty (getUUID p) Hp). done.
Qed.

Lemma addPlayer_playerA m p : playerA (addPlayer m p) = playerA m.
Proof. unfold addPlayer. simpl. by destruct (_ && _). Qed.

Lemma addPlayer_playerB m p : playerB (addPlayer m p) = Some (getUUID p).
Proof. unfold addPlayer. simpl. by destruct (_ && _). Qed.

Lemma addPlayer_uuid m p : uuid (addPlayer m p) = uuid m.
Proof. unfold addPlayer. simpl. by destruct (_ && _). Qed.

Lemma joined_playerA m : joined m → playerA m ≠ "".
Proof.
  induction 1 as [fresh a b rdy u Ha _ | fresh d Ha _ | m p _ IH _]; simpl; try done.
  by rewrite addPlayer_playerA.
Qed.

(** C6, amended: a match built by the constructor or by [from] out of
    arguments that already agree (ready exactly when the second identity is
    given) and a non-empty first identity, then joined any number of times by
    players with non-empty identities, is ready if and only if both
    identities are present. *)
Theorem ready_iff_both_present m :
  joined m → (ready m = true ↔ both_present m).
Proof.
  induction 1 as [fresh a b rdy u _ Hc | fresh d _ Hc | m p Hm _ Hp].
  - exact Hc.
  - exact Hc.
  - unfold both_present. rewrite addPlayer_playerB.
    rewrite (addPlayer_ready m p (joined_playerA m Hm) Hp).
    split; [by eexists | done].
Qed.

Lemma ready_iff_both_present_witness :
  joined (addPlayer alice_alone bob)
  ∧ (ready (addPlayer alice_alone bob) = true
     ↔ both_present (addPlayer alice_alone bob)).
Proof.
  assert (Hj : joined (addPlayer alice_alone bob)).
  { apply joined_add; [apply joined_new |]; simpl.
    - discriminate.
    - split; [discriminate | intros [x Hx]; discriminate Hx].
    - discriminate. }
  split; [exact Hj | exact (ready_iff_both_present _ Hj)].
Defined.

(** C8: in a match that holds A and B, the opponent of A is B, the opponent
    of B is A, and the lookup fails for a player who is neither, with the
    error that names that player and the match. *)
Theorem opponent_lookup m b pa pb :
  playerB m = Some b → getUUID pa = playerA m → getUUID pb = b →
  getPlayerOpponentUUID m pa = inr (Some b)
  ∧ getPlayerOpponentUUID m pb = inr (Some (playerA m))
  ∧ ∀ p, getUUID p ≠ playerA m → getUUID p ≠ b →
      getPlayerOpponentUUID m p = inl (NotAssociated (getUUID p) (uuid m)).
Proof.
  intros HB Ha Hb. unfold getPlayerOpponentUUID. rewrite HB. repeat split.
  - rewrite Ha. by rewrite decide_True.
  - rewrite Hb. destruct (decide (b = playerA m)) as [-> | Hne]; [done |].
    by rewrite decide_True.
  - intros p Hpa Hpb. rewrite decide_False by done.
    rewrite decide_False; [done |]. intros [= Heq]. done.
Qed.

Lemma opponent_lookup_witness :
  let m := addPlayer alice_alone bob in
  let alice := {| player_uuid := "alice"; player_ships := None |} in
  playerB m = Some "bob" ∧ getUUID alice = playerA m ∧ getUUID bob = "bob"
  ∧ getPlayerOpponentUUID m alice = inr (Some "bob")
  ∧ getPlayerOpponentUUID m bob = inr (Some (playerA m))
  ∧ ∀ p, getUUID p ≠ playerA m → getUUID p ≠ "bob" →
      getPlayerOpponentUUID m p = inl (NotAssociated (getUUID p) (uuid m)).
Proof.
  intros m alice.
  split; [reflexivity |]. split; [reflexivity |]. split; [reflexivity |].
  apply (opponent_lookup m "bob" alice bob); reflexivity.
Defined.

(** C10: [addPlayer] always writes the identity of the player into the
    second slot and keeps the first; it returns a match whatever the state
    it is called on, so on a match that is not joinable the second
    participant is replaced without an error. *)
Theorem addPlayer_overwrites_second_slot m p :
  playerB (addPlayer m p) = Some (getUUID p)
  ∧ playerA (addPlayer m p) = playerA m
  ∧ isJoinable (addPlayer m p) = false.
Proof.
  split; [apply addPlayer_playerB |]. split; [apply addPlayer_playerA |].
  unfold isJoinable. by rewrite addPlayer_playerB.
Qed.

(** The second participant of a full match is replaced. *)
Example addPlayer_replaces :
  let m := addPlayer alice_alone bob in
  isJoinable m = false
  ∧ getPlayers m = ("alice", Some "bob")
  ∧ getPlayers (addPlayer m carol) = ("alice", Some "carol").
Proof. by repeat split. Qed.

End MatchInstanceFacts.

(** ** The notifications *)

Module CloudEventsFacts.
Import CloudEvents.

(** C9: whatever the data, [lose] posts one event and its type is the value
    of [CloudEventType.Win], the type that [win] posts, which differs from
    the value of [CloudEventType.Lose]. *)
Theorem lose_sends_win_type (data : WinLoseEventData) (out : Outbox) :
  lose data out
    = out ++ [ {| ce_type := type_value Win; ce_source := source;
                  ce_data := WinLoseData data |} ]
  ∧ ce_type <$> last (lose data out) = Some (type_value Win)
  ∧ ce_type <$> last (lose data out) = ce_type <$> last (win data out)
  ∧ ce_type <$> last (lose data out) ≠ Some (type_value Lose).
Proof.
  unfold lose, win, sendEvent. rewrite last_snoc. simpl. by repeat split.
Qed.

End CloudEventsFacts.

(** ** The loss predicate *)

Module OutcomeFacts.
Import Validations Vocabulary.

(** C2, as the specification states it, fails: the code has no guard for a
    record without cells, and [every] over the empty array is true. *)
Lemma no_cells_reports_loss :
  (∃ ships, getShipPositionData no_cells = Some ships ∧ all_cells ships = [])
  ∧ isGameOverForPlayer no_cells = true.
Proof. split; [by eexists |]. reflexivity. Qed.

(** C2, amended: for a player whose record is present and holds no cell at
    all, the loss predicate returns true. *)
Theorem empty_record_is_lost p ships :
  getShipPositionData p = Some ships → all_cells ships = [] →
  isGameOverForPlayer p = true.
Proof.
  intros Hp He. unfold isGameOverForPlayer. rewrite Hp.
  unfold all_cells in He. by rewrite He.
Qed.

Lemma empty_record_is_lost_witness :
  getShipPositionData no_cells = Some (default [] (player_ships no_cells))
  ∧ all_cells (default [] (player_ships no_cells)) = []
  ∧ isGameOverForPlayer no_cells = true.
Proof.
  split; [reflexivity |]. split; [reflexivity |].
  apply (empty_record_is_lost no_cells (default [] (player_ships no_cells)));
    reflexivity.
Defined.

(** C7: the loss predicate is false when the record is absent; when it is
    present, it is true exactly when every cell of every ship is hit. *)
Theorem loss_iff_every_cell_hit p :
  match getShipPositionData p with
  | None => isGameOverForPlayer p = false
  | Some ships =>
      isGameOverForPlayer p = true
      ↔ ∀ k s c, (k, s) ∈ ships → c ∈ cells s → hit c = true
  end.
Proof.
  unfold isGameOverForPlayer. destruct (getShipPositionData p) as [ships |];
    [| reflexivity].
  rewrite forallb_forall. split.
  - intros H k s c Hs Hc. specialize (H c).
    rewrite <- list_elem_of_In in H.
    assert (Hin : c ∈ concat ((λ s, cells s) <$> ships.*2)).
    { apply elem_of_concat. exists (cells s). split; [done |].
      apply list_elem_of_fmap. exists s. split; [done |].
      apply list_elem_of_fmap. by exists (k, s). }
    specialize (H Hin). by destruct (hit c).
  - intros H c Hc. rewrite <- list_elem_of_In in Hc.
    apply elem_of_concat in Hc as (l & Hcl & Hl).
    apply list_elem_of_fmap in Hl as (s & -> & Hs).
    apply list_elem_of_fmap in Hs as ([k s'] & -> & Hks).
    by rewrite (H k s' c Hks Hcl).
Qed.

End OutcomeFacts.

(** ** The placement validator *)

Module ValidationsFacts.
Import Validations Vocabulary.

(** *** One row *)

Lemma row_incr_length_ge c row :
  (length row ≤ length (row_incr c row))%nat.
Proof.
  unfold row_incr. destruct (c <? 0); [done |].
  destruct (row !! Z.to_nat c).
  - by rewrite length_insert.
  - rewrite length_app. lia.
Qed.

Lemma row_incr_length_gt c row :
  0 ≤ c → (Z.to_nat c < length (row_incr c row))%nat.
Proof.
  intros Hc. unfold row_incr.
  destruct (Z.ltb_spec c 0) as [| _]; [lia |].
  destruct (row !! Z.to_nat c) eqn:E.
  - rewrite length_insert. by apply lookup_lt_Some in E.
  - apply lookup_ge_None in E.
    rewrite !length_app, length_replicate. simpl. lia.
Qed.

Lemma row_incr_length_in c row :
  c < Z.of_nat (length row) → length (row_incr c row) = length row.
Proof.
  intros Hc. unfold row_incr. destruct (Z.ltb_spec c 0) as [| Hc0]; [done |].
  destruct (row !! Z.to_nat c) eqn:E.
  - by rewrite length_insert.
  - apply lookup_ge_None in E. lia.
Qed.

Lemma row_incr_lookup_ne c row j :
  c ≠ Z.of_nat j → (j < length row)%nat → row_incr c row !! j = row !! j.
Proof.
  intros Hne Hj. unfold row_incr.
  destruct (Z.ltb_spec c 0) as [| Hc]; [done |].
  destruct (row !! Z.to_nat c).
  - apply list_lookup_insert_ne. lia.
  - by apply lookup_app_l.
Qed.

Lemma row_incr_lookup_eq j row v :
  row !! j = Some v →
  row_incr (Z.of_nat j) row !! j = Some (Some (plus1 v)).
Proof.
  intros Hv. unfold row_incr.
  destruct (Z.ltb_spec (Z.of_nat j) 0) as [| _]; [lia |].
  rewrite Nat2Z.id, Hv. apply list_lookup_insert_eq.
  by apply lookup_lt_Some in Hv.
Qed.

Lemma row_fold_length_ge cl row : (length row ≤ length (row_fold cl row))%nat.
Proof.
  revert row. induction cl as [| c cl IH]; intros row; simpl; [done |].
  etrans; [apply (row_incr_length_ge c) | apply IH].
Qed.

(** A write at a column extends the row at least up to that column. *)
Lemma row_fold_length_gt cl row c :
  c ∈ cl → 0 ≤ c → (Z.to_nat c < length (row_fold cl row))%nat.
Proof.
  revert row. induction cl as [| c' cl IH]; intros row Hin Hc.
  - by apply elem_of_nil in Hin.
  - apply elem_of_cons in Hin as [<- | Hin]; simpl.
    + eapply Nat.lt_le_trans; [by apply row_incr_length_gt |].
      apply row_fold_length_ge.
    + by apply IH.
Qed.

(** Writes inside the row keep its length. *)
Lemma row_fold_length_in cl row :
  (∀ c, c ∈ cl → c < Z.of_nat (length row)) →
  length (row_fold cl row) = length row.
Proof.
  revert row. induction cl as [| c cl IH]; intros row Hin; simpl; [done |].
  assert (Hl : length (row_incr c row) = length row).
  { apply row_incr_length_in, Hin. left. }
  rewrite IH; [done |]. intros c' Hc'. rewrite Hl. apply Hin. by right.
Qed.

(** A slot inside the row that holds a number holds, after the writes, that
    number plus the number of writes at its column. *)
Lemma row_fold_lookup cl row j z :
  row !! j = Some (Some (Num z)) →
  row_fold cl row !! j = Some (Some (Num (z + hits j cl))).
Proof.
  revert row z. induction cl as [| c cl IH]; intros row z Hj; simpl.
  - unfold hits. simpl. by rewrite Z.add_0_r.
  - unfold hits. rewrite filter_cons.
    destruct (decide (c = Z.of_nat j)) as [-> | Hne].
    + rewrite (IH _ (z + 1)).
      * unfold hits. simpl length. do 3 f_equal. lia.
      * by rewrite (row_incr_lookup_eq _ _ _ Hj).
    + rewrite (IH _ z); [done |].
      rewrite row_incr_lookup_ne; [done | done |].
      by apply lookup_lt_Some in Hj.
Qed.

Lemma nz_app r1 r2 : nz (r1 ++ r2) = nz r1 + nz r2.
Proof. unfold nz. rewrite filter_app, length_app. lia. Qed.

Lemma nz_replicate_zero n : nz (replicate n (Some (Num 0))) = 0.
Proof.
  unfold nz. induction n as [| n IH]; [done |].
  simpl replicate. by rewrite filter_cons_False.
Qed.

(** A write on a slot that holds zero adds one occupied slot. *)
Lemma nz_row_incr j row :
  row !! j = Some (Some (Num 0)) → nz (row_incr (Z.of_nat j) row) = nz row + 1.
Proof.
  intros Hj. unfold row_incr.
  destruct (Z.ltb_spec (Z.of_nat j) 0) as [| _]; [lia |].
  rewrite Nat2Z.id, Hj.
  rewrite <- (take_drop_middle _ _ _ Hj) at 2.
  rewrite insert_take_drop by (by apply lookup_lt_Some in Hj).
  rewrite !nz_app. change (?x :: ?l) with ([x] ++ l). rewrite !nz_app.
  simpl. unfold nz at 2 5. simpl. lia.
Qed.

(** Writes on distinct slots that hold zero add as many occupied slots. *)
Lemma nz_row_fold (cl : list Z) row :
  NoDup cl →
  (∀ c, c ∈ cl → 0 ≤ c ∧ row !! Z.to_nat c = Some (Some (Num 0))) →
  nz (row_fold cl row) = nz row + Z.of_nat (length cl).
Proof.
  revert row. induction cl as [| c cl IH]; intros row Hnd Hz; simpl.
  - lia.
  - apply NoDup_cons in Hnd as [Hc Hnd].
    destruct (Hz c) as [Hc0 Hrow]; [left |].
    rewrite IH; [| done |].
    + rewrite <- (Z2Nat.id c) at 1 by done. rewrite nz_row_incr by done. lia.
    + intros c' Hc'. destruct (Hz c') as [Hc'0 Hrow']; [by right |].
      split; [done |]. rewrite row_incr_lookup_ne; [done | |].
      * intros ->. rewrite Z2Nat.id in Hc by done. done.
      * by apply lookup_lt_Some in Hrow'.
Qed.

(** *** The grid *)

Lemma incr_all_app cs1 cs2 g :
  incr_all (cs1 ++ cs2) g = bind (incr_all cs1 g) (incr_all cs2).
Proof.
  revert g. induction cs1 as [| rc cs1 IH]; intros g; [done |].
  cbn [incr_all app].
  destruct (grid_incr (Some rc.1) (Some rc.2) g) as [e | g1]; unfold bind;
    [done | apply IH].
Qed.

(** With every row index inside the grid, the increments succeed, and each
    row of the result is the row it was with the writes of its cells. *)
Lemma incr_all_rows cs g :
  (∀ rc, rc ∈ cs → 0 ≤ rc.1 < Z.of_nat (length g)) →
  ∃ g', incr_all cs g = inr g' ∧ length g' = length g
        ∧ ∀ i, g' !! i = row_fold (cols i cs) <$> g !! i.
Proof.
  revert g. induction cs as [| [r c] cs IH]; intros g Hin.
  - exists g. repeat split. intros i. by destruct (g !! i).
  - assert (Hr : 0 ≤ r < Z.of_nat (length g)) by (apply (Hin (r, c)); left).
    simpl. unfold grid_incr.
    destruct (Z.ltb_spec r 0) as [| _]; [lia |].
    destruct (lookup_lt_is_Some_2 g (Z.to_nat r)) as [row Hrow]; [lia |].
    rewrite Hrow. simpl.
    destruct (IH (alter (row_incr c) (Z.to_nat r) g)) as (g' & Hg' & Hlen & Hrows).
    { intros rc Hrc. rewrite length_alter. apply Hin. by right. }
    exists g'. split; [done |]. rewrite length_alter in Hlen. split; [done |].
    intros i. rewrite Hrows. unfold cols. rewrite filter_cons. simpl.
    destruct (decide (r = Z.of_nat i)) as [-> | Hne].
    + rewrite Nat2Z.id, list_lookup_alter_eq. by destruct (g !! i).
    + rewrite list_lookup_alter_ne by lia. done.
Qed.

(** *** The check *)

Lemma scan_row_clean i j row occ :
  (∀ v, v ∈ row → gt1 v = false) → scan_row i j row occ = inr (occ + nz row).
Proof.
  revert j occ. induction row as [| v row IH]; intros j occ Hv; simpl.
  - unfold nz. simpl. by rewrite Z.add_0_r.
  - rewrite (Hv v) by left. rewrite IH by (intros v' Hv'; apply Hv; by right).
    unfold nz. rewrite filter_cons. f_equal.
    destruct (nonzero v); simpl; lia.
Qed.


Lemma scan_row_inr i j row occ occ' :
  scan_row i j row occ = inr occ' → ∀ v, v ∈ row → gt1 v = false.
Proof.
  revert j occ. induction row as [| w row IH]; intros j occ H v Hv.
  - by apply elem_of_nil in Hv.
  - simpl in H. destruct (gt1 w) eqn:Hw; [done |].
    apply elem_of_cons in Hv as [-> | Hv]; [done |]. by eapply IH.
Qed.


Section Scan.
Variable N : Z.


(** Rows of the length of the board without a slot over one: the check runs
    to its end and counts the occupied slots. *)
Lemma scan_grid_clean i g occ :
  (∀ row, row ∈ g → Z.of_nat (length row) = N
                    ∧ ∀ v, v ∈ row → gt1 v = false) →
  scan_grid N i g occ = inr (occ + nz_grid g).
Proof.
  revert i occ. induction g as [| row g IH]; intros i occ Hg; simpl.
  - by rewrite Z.add_0_r.
  - destruct (Hg row) as [Hlen Hv]; [left |].
    rewrite decide_True by done. rewrite scan_row_clean by done. simpl.
    rewrite IH by (intros row' Hrow'; apply Hg; by right). f_equal. lia.
Qed.


(** A row of another length, with no slot over one in the rows above it that
    have the length of the board: the check stops with the edge error. *)
Lemma scan_grid_edge i g occ k row :
  g !! k = Some row → Z.of_nat (length row) ≠ N →
  (∀ k' row' v, (k' < k)%nat → g !! k' = Some row' →
     Z.of_nat (length row') = N → v ∈ row' → gt1 v = false) →
  scan_grid N i g occ = inl OverTheEdge.
Proof.
  revert i occ k. induction g as [| r0 g IH]; intros i occ k Hk Hlen Habove.
  - done.
  - simpl. destruct (decide (Z.of_nat (length r0) = N)) as [Hr0 | ]; [| done].
    destruct k as [| k]; [simpl in Hk; congruence |].
    rewrite scan_row_clean; simpl.
    + apply (IH _ _ k); [done | done |].
      intros k' row' v Hk' Hrow'. apply (Habove (S k')); [lia | done].
    + intros v Hv. apply (Habove 0%nat r0); [lia | done | done | done].
Qed.

End Scan.

(** *** Ships and the cells they cover *)

Lemma size_of_ship t :
  getCellAreaWidthAndHeight_x (ShipSize t) = Num (ship_length t).
Proof. by destruct t. Qed.

Lemma expected_is_sum :
  EXPECTED_OCCUPIED_SQUARES
  = Num (ship_length Battleship + ship_length Destroyer + ship_length Submarine).
Proof. reflexivity. Qed.

Lemma ShipType_of_value t : ShipType_of (ShipType_value t) = Some t.
Proof. by destruct t. Qed.

Lemma ShipType_of_Some k t : ShipType_of k = Some t → k = ShipType_value t.
Proof.
  unfold ShipType_of. intros H.
  destruct (list_find _ _) as [[i t'] |] eqn:E; [| done].
  apply list_find_Some in E as (_ & E & _). simpl in H. congruence.
Qed.

Lemma ShipType_value_inj t1 t2 :
  ShipType_value t1 = ShipType_value t2 → t1 = t2.
Proof.
  intros H. apply (f_equal ShipType_of) in H.
  rewrite !ShipType_of_value in H. congruence.
Qed.

Lemma ship_cells_covers t s r c : (r, c) ∈ ship_cells t s ↔ covers t s r c.
Proof.
  unfold ship_cells, covers. split.
  - destruct (origin s) as [| x [| y [| z o]]]; try (intros H; by apply elem_of_nil in H).
    intros H. apply list_elem_of_fmap in H as (i & Hi & Hin).
    apply elem_of_seqZ in Hin. exists x, y. split; [done |].
    destruct (decide (orientation s = Horizontal)); inversion Hi; lia.
  - intros (x & y & -> & H). apply list_elem_of_fmap.
    destruct (decide (orientation s = Horizontal)).
    + exists (c - x). split; [f_equal; lia | apply elem_of_seqZ; lia].
    + exists (r - y). split; [f_equal; lia | apply elem_of_seqZ; lia].
Qed.

Lemma ship_cells_NoDup t s : NoDup (ship_cells t s).
Proof.
  unfold ship_cells.
  destruct (origin s) as [| x [| y [| z o]]]; try apply NoDup_nil_2.
  apply NoDup_fmap_2_strong; [| apply NoDup_seqZ].
  intros i j _ _. destruct (decide (orientation s = Horizontal));
    intros [= H]; lia.
Qed.

Lemma ship_cells_length t s x y :
  origin s = [x; y] → Z.of_nat (length (ship_cells t s)) = ship_length t.
Proof.
  intros Ho. unfold ship_cells. rewrite Ho, length_fmap, length_seqZ.
  destruct t; simpl; lia.
Qed.

(** In a list without repetition a cell occurs once or not at all. *)
Lemma cover_NoDup cs rc :
  NoDup cs → cover cs rc = if decide (rc ∈ cs) then 1%nat else 0%nat.
Proof.
  unfold cover. induction 1 as [| x cs Hx Hnd IH]; [done |].
  rewrite filter_cons. destruct (decide (x = rc)) as [-> | Hne]; simpl.
  - rewrite IH. rewrite decide_False by done. by rewrite decide_True by left.
  - rewrite IH. destruct (decide (rc ∈ cs)) as [Hin | Hnin].
    + by rewrite decide_True by (by right).
    + rewrite decide_False; [done |]. intros [-> | H]%elem_of_cons; done.
Qed.

Lemma cover_app cs1 cs2 rc : cover (cs1 ++ cs2) rc = (cover cs1 rc + cover cs2 rc)%nat.
Proof. unfold cover. by rewrite filter_app, length_app. Qed.

(** The writes at a column of a row are the occurrences of the cell. *)
Lemma hits_cols i j cs :
  hits j (cols i cs) = Z.of_nat (cover cs (Z.of_nat i, Z.of_nat j)).
Proof.
  unfold hits, cols, cover. f_equal.
  induction cs as [| [r c] cs IH]; [done |].
  rewrite !filter_cons. simpl.
  destruct (decide (r = Z.of_nat i)) as [-> | Hr].
  - rewrite fmap_cons, filter_cons. simpl.
    destruct (decide (c = Z.of_nat j)) as [-> | Hc].
    + rewrite decide_True by done. simpl. by rewrite IH.
    + rewrite decide_False by congruence. done.
  - rewrite decide_False by congruence. done.
Qed.

(** *** The payload as an object *)

Lemma get_Some_elem k s (p : Payload) : get k p = Some s → (k, s) ∈ p.
Proof.
  induction p as [| [k' s'] p IH]; simpl; [done |].
  destruct (decide (k = k')) as [-> | Hne].
  - intros [= ->]. left.
  - intros H. right. by apply IH.
Qed.

Lemma get_elem_NoDup k s (p : Payload) :
  NoDup (keys p) → (k, s) ∈ p → get k p = Some s.
Proof.
  unfold keys. induction p as [| [k' s'] p IH]; intros Hnd Hin.
  - by apply elem_of_nil in Hin.
  - simpl in *. apply NoDup_cons in Hnd as [Hk' Hnd].
    apply elem_of_cons in Hin as [[= -> ->] | Hin].
    + by rewrite decide_True.
    + rewrite decide_False; [by apply IH |].
      intros ->. apply Hk'. apply list_elem_of_fmap. by exists (k', s).
Qed.

(** *** Population as increments at the cells of the ships *)

Lemma populate_loop_cells s x y steps g :
  origin s = [x; y] →
  populate_loop s steps g
  = incr_all ((λ i, if decide (orientation s = Horizontal)
                    then (y, x + i) else (y + i, x)) <$> steps) g.
Proof.
  intros Ho. revert g. induction steps as [| i steps IH]; intros g; [done |].
  cbn [populate_loop fmap list_fmap incr_all].
  assert (Hc : (cell_at s i).1
               = Some (if decide (orientation s = Horizontal)
                       then (y, x + i) else (y + i, x)).1
             ∧ (cell_at s i).2
               = Some (if decide (orientation s = Horizontal)
                       then (y, x + i) else (y + i, x)).2).
  { unfold cell_at. rewrite Ho.
    by destruct (decide (orientation s = Horizontal)). }
  destruct Hc as [-> ->].
  destruct (grid_incr _ _ g) as [e | g1]; unfold bind; [done | apply IH].
Qed.

Lemma populate_key_cells (p : Payload) t s x y g :
  get (ShipType_value t) p = Some s → origin s = [x; y] →
  populate_key p (ShipType_value t) g = incr_all (ship_cells t s) g.
Proof.
  intros Hget Ho. unfold populate_key, ShipSize_at.
  rewrite ShipType_of_value, Hget. simpl. rewrite size_of_ship.
  unfold populateGridWithShipData, ship_cells. rewrite Ho.
  by apply populate_loop_cells.
Qed.

Lemma populate_keys_cells (p q : Payload) g :
  placed_in p q → populate_keys p (keys q) g = incr_all (cells_of q) g.
Proof.
  revert g. induction q as [| [k s] q IH]; intros g Hq; [done |].
  destruct (Hq k s) as (Hget & [t ->] & x & y & Ho); [left |].
  unfold keys, cells_of. cbn [fmap list_fmap fst snd populate_keys concat].
  rewrite ShipType_of_value, incr_all_app.
  rewrite (populate_key_cells p t s x y g Hget Ho).
  destruct (incr_all (ship_cells t s) g) as [e | g1]; unfold bind; [done |].
  apply IH. intros k' s' Hin. apply Hq. by right.
Qed.

Lemma cells_of_elem (q : Payload) rc :
  rc ∈ cells_of q
  ↔ ∃ t s, (ShipType_value t, s) ∈ q ∧ rc ∈ ship_cells t s.
Proof.
  unfold cells_of. rewrite elem_of_concat. split.
  - intros (l & Hrc & Hl). apply list_elem_of_fmap in Hl as ([k s] & -> & He).
    simpl in Hrc. destruct (ShipType_of k) as [t |] eqn:Ht.
    + apply ShipType_of_Some in Ht as ->. by exists t, s.
    + by apply elem_of_nil in Hrc.
  - intros (t & s & He & Hrc). exists (ship_cells t s). split; [done |].
    apply list_elem_of_fmap. exists (ShipType_value t, s). simpl.
    by rewrite ShipType_of_value.
Qed.

(** *** What the schema accepts *)

Lemma filter_nil_Forall {A} (P : A → Prop) `{∀ x, Decision (P x)} (l : list A) :
  (∀ x, x ∈ l → ¬ P x) → filter P l = [].
Proof.
  induction l as [| x l IH]; intros Hl; [done |].
  rewrite filter_cons_False by (apply Hl; left).
  apply IH. intros y Hy. apply Hl. by right.
Qed.

Lemma number_schema_nil N path z :
  number_schema N path z = []
  ↔ 0 ≤ z ≤ N - 1 ∧ - MAX_SAFE_INTEGER ≤ z ≤ MAX_SAFE_INTEGER.
Proof.
  unfold number_schema.
  destruct (Z.ltb_spec MAX_SAFE_INTEGER z), (Z.ltb_spec z (- MAX_SAFE_INTEGER));
    simpl; try (split; [done | lia]).
  destruct (Z.ltb_spec z 0), (Z.ltb_spec (N - 1) z); simpl;
    split; (done || lia).
Qed.

Lemma origin_schema_nil N path o :
  origin_schema N path o = []
  ↔ ∃ x y, o = [x; y]
      ∧ number_schema N (path ++ [Idx 0]) x = []
      ∧ number_schema N (path ++ [Idx 1]) y = [].
Proof.
  unfold origin_schema. split.
  - intros H. apply app_nil in H as [Hitems H]. apply app_nil in H as [Hmin Hmax].
    destruct o as [| x [| y [| z o]]]; try done.
    exists x, y. simpl in Hitems. rewrite app_nil_r in Hitems.
    apply app_nil in Hitems as [Hx Hy]. done.
  - intros (x & y & -> & Hx & Hy). simpl. by rewrite Hx, Hy.
Qed.

Lemma orientation_schema_nil path s : orientation_schema path s = [] ↔ s ≠ "".
Proof.
  unfold orientation_schema. case_bool_decide as Hin.
  - split; [| done]. intros _ ->.
    apply elem_of_cons in Hin as [Hin | Hin]; [done |].
    apply elem_of_cons in Hin as [Hin | Hin]; [done |].
    by apply elem_of_nil in Hin.
  - case_bool_decide; split; done.
Qed.

Lemma ShipSchema_nil N path s :
  ShipSchema N path s = []
  ↔ ∃ x y, origin s = [x; y] ∧ orientation s ≠ ""
      ∧ (0 ≤ x ≤ N - 1 ∧ - MAX_SAFE_INTEGER ≤ x ≤ MAX_SAFE_INTEGER)
      ∧ (0 ≤ y ≤ N - 1 ∧ - MAX_SAFE_INTEGER ≤ y ≤ MAX_SAFE_INTEGER).
Proof.
  unfold ShipSchema. rewrite app_nil, origin_schema_nil, orientation_schema_nil.
  setoid_rewrite number_schema_nil. split.
  - intros [(x & y & Ho & Hx & Hy) Hor]. by exists x, y.
  - intros (x & y & Ho & Hor & Hx & Hy). split; [by exists x, y | done].
Qed.

(** What the schema asks of the entry of one ship type. *)
Lemma ShipsLockedSchema_entry N (p : Payload) t :
  ShipsLockedSchema N p = [] →
  ∃ s, get (ShipType_value t) p = Some s
       ∧ ShipSchema N [Key (ShipType_value t)] s = [].
Proof.
  unfold ShipsLockedSchema. intros H. apply app_nil in H as [H _].
  cbn [ship_types fmap list_fmap concat] in H.
  apply app_nil in H as [HB H]. apply app_nil in H as [HD H].
  apply app_nil in H as [HS _].
  destruct t.
  - destruct (get (ShipType_value Battleship) p) as [s |]; [by exists s | done].
  - destruct (get (ShipType_value Destroyer) p) as [s |]; [by exists s | done].
  - destruct (get (ShipType_value Submarine) p) as [s |]; [by exists s | done].
Qed.

Lemma ShipsLockedSchema_keys N (p : Payload) k :
  ShipsLockedSchema N p = [] → k ∈ keys p → ∃ t, k = ShipType_value t.
Proof.
  unfold ShipsLockedSchema. intros H Hk. apply app_nil in H as [_ H].
  apply fmap_nil_inv in H.
  destruct (decide (k ∈ ShipType_value <$> ship_types)) as [Hin | Hnin].
  - apply list_elem_of_fmap in Hin as (t & -> & _). by exists t.
  - by destruct (filter_nil_not_elem_of _ _ k H Hnin).
Qed.

(** A payload without violation is well shaped. *)
Lemma schema_accepts_well_shaped N (p : Payload) :
  NoDup (keys p) → ShipsLockedSchema N p = [] → well_shaped N p.
Proof.
  intros Hnd H. split.
  - intros k. split; [by apply (ShipsLockedSchema_keys N) |].
    intros [t ->]. destruct (ShipsLockedSchema_entry N p t H) as (s & Hs & _).
    apply get_Some_elem in Hs. apply list_elem_of_fmap.
    by exists (ShipType_value t, s).
  - intros k s Hin.
    destruct (ShipsLockedSchema_keys N p k H) as [t ->].
    { apply list_elem_of_fmap. by exists (k, s). }
    destruct (ShipsLockedSchema_entry N p t H) as (s' & Hs' & Hschema).
    rewrite (get_elem_NoDup _ _ _ Hnd Hin) in Hs'. injection Hs' as <-.
    apply ShipSchema_nil in Hschema as (x & y & Ho & Hor & Hx & Hy).
    exists x, y. repeat split; (done || lia).
Qed.

(** A well shaped payload has no violation, on a board whose size is a safe
    integer. *)
Lemma well_shaped_schema_accepts N (p : Payload) :
  N - 1 ≤ MAX_SAFE_INTEGER → NoDup (keys p) → well_shaped N p →
  ShipsLockedSchema N p = [].
Proof.
  intros HN Hnd [Hkeys Hent]. unfold ShipsLockedSchema. apply app_nil. split.
  - assert (He : ∀ t, match get (ShipType_value t) p with
                      | Some s => ShipSchema N [Key (ShipType_value t)] s
                      | None => [ {| v_path := [Key (ShipType_value t)];
                                     v_code := any_required |} ]
                      end = []).
    { intros t. assert (Hin : ShipType_value t ∈ keys p) by (apply Hkeys; by exists t).
      apply list_elem_of_fmap in Hin as ([k s] & Hk & Hin). simpl in Hk. subst k.
      rewrite (get_elem_NoDup _ _ _ Hnd Hin).
      destruct (Hent _ _ Hin) as (x & y & Ho & Hx & Hy & Hor).
      apply ShipSchema_nil. exists x, y.
      repeat split; try done; unfold MAX_SAFE_INTEGER in *; lia. }
    cbn [ship_types fmap list_fmap concat]. by rewrite !He.
  - rewrite filter_nil_Forall; [done |].
    intros k Hk Hnin. apply Hkeys in Hk as [t ->]. apply Hnin.
    apply list_elem_of_fmap. exists t. split; [done |]. destruct t; [left | right; left | right; right; left].
Qed.

Lemma ship_types_NoDup : NoDup ship_types.
Proof. apply (bool_decide_unpack _). by vm_compute. Qed.

(** An object the schema accepts has three entries, one per ship type. *)
Lemma well_shaped_three N (p : Payload) :
  NoDup (keys p) → well_shaped N p →
  ∃ t1 t2 t3 s1 s2 s3,
    p = [(ShipType_value t1, s1); (ShipType_value t2, s2);
         (ShipType_value t3, s3)]
    ∧ t1 ≠ t2 ∧ t1 ≠ t3 ∧ t2 ≠ t3.
Proof.
  intros Hnd [Hkeys _].
  assert (Hperm : keys p ≡ₚ ShipType_value <$> ship_types).
  { apply NoDup_Permutation; [done | |].
    - apply NoDup_fmap_2_strong; [| apply ship_types_NoDup].
      intros t t' _ _. apply ShipType_value_inj.
    - intros k. rewrite Hkeys, list_elem_of_fmap. split.
      + intros [t ->]. exists t. split; [done |].
        destruct t; [left | right; left | right; right; left].
      + intros (t & -> & _). by exists t. }
  apply Permutation_length in Hperm. unfold keys in *.
  rewrite !length_fmap in Hperm.
  destruct p as [| [k1 s1] [| [k2 s2] [| [k3 s3] [| e p]]]]; try done.
  destruct (proj1 (Hkeys k1)) as [t1 ->]; [left |].
  destruct (proj1 (Hkeys k2)) as [t2 ->]; [right; left |].
  destruct (proj1 (Hkeys k3)) as [t3 ->]; [right; right; left |].
  exists t1, t2, t3, s1, s2, s3. split; [done |].
  simpl in Hnd. apply NoDup_cons in Hnd as [H1 Hnd].
  apply NoDup_cons in Hnd as [H2 _].
  repeat split; intros ->.
  - apply H1. left.
  - apply H1. right. left.
  - apply H2. left.
Qed.

Lemma well_shaped_placed N (p : Payload) :
  NoDup (keys p) → well_shaped N p → placed_in p p.
Proof.
  intros Hnd [Hkeys Hent] k s Hin. split; [by apply get_elem_NoDup |]. split.
  - apply Hkeys. apply list_elem_of_fmap. by exists (k, s).
  - destruct (Hent k s Hin) as (x & y & Ho & _). by exists x, y.
Qed.

(** *** The grid after the population *)

(** When every cell of the ships lies in a row of the board, the population
    ends without error, and each row of the result is the empty row with the
    writes of the cells of that row. *)
Lemma populated_grid N (p : Payload) :
  NoDup (keys p) → well_shaped N p →
  (∀ rc, rc ∈ cells_of p → 0 ≤ rc.1 ≤ N - 1) →
  ∃ g, populate_keys p (keys p) (generateEmptyGridArray N) = inr g
       ∧ length g = Z.to_nat N
       ∧ ∀ i row, g !! i = Some row
           ↔ (i < Z.to_nat N)%nat
             ∧ row = row_fold (cols i (cells_of p)) (zero_row N).
Proof.
  intros Hnd Hws Hrows.
  rewrite (populate_keys_cells p p) by (by apply (well_shaped_placed N)).
  destruct (incr_all_rows (cells_of p) (generateEmptyGridArray N))
    as (g & Hg & Hlen & Hg').
  { intros rc Hrc. unfold generateEmptyGridArray. rewrite length_replicate.
    specialize (Hrows rc Hrc). lia. }
  unfold generateEmptyGridArray in Hlen. rewrite length_replicate in Hlen.
  exists g. split; [done |]. split; [done |].
  intros i row. rewrite Hg'. unfold generateEmptyGridArray.
  destruct (decide (i < Z.to_nat N)%nat) as [Hi | Hi].
  - rewrite lookup_replicate_2 by done. simpl. unfold zero_row.
    split; [intros [= <-]; done | intros [_ ->]; done].
  - rewrite (proj1 (lookup_replicate_None _ _ _)) by lia. simpl.
    split; [done | intros [? _]; done].
Qed.

(** A slot of the board holds the number of cells of ships at its place. *)
Lemma populated_slot N i j cs :
  (j < Z.to_nat N)%nat →
  row_fold (cols i cs) (zero_row N) !! j
  = Some (Some (Num (Z.of_nat (cover cs (Z.of_nat i, Z.of_nat j))))).
Proof.
  intros Hj. rewrite <- hits_cols.
  rewrite (row_fold_lookup _ _ j 0); [done |].
  unfold zero_row. by apply lookup_replicate_2.
Qed.

(** *** Counting the occupied slots *)

Lemma sumf_zero k n : sumf (λ _, 0) k n = 0.
Proof. revert k. induction n as [| n IH]; intros k; simpl; [done | by rewrite IH]. Qed.

Lemma sumf_add f f' k n :
  sumf (λ i, f i + f' i) k n = sumf f k n + sumf f' k n.
Proof.
  revert k. induction n as [| n IH]; intros k; simpl; [done |].
  rewrite IH. lia.
Qed.

Lemma sumf_ext f f' k n : (∀ i, f i = f' i) → sumf f k n = sumf f' k n.
Proof.
  intros He. revert k. induction n as [| n IH]; intros k; simpl; [done |].
  by rewrite He, IH.
Qed.

Lemma sumf_one r k n :
  sumf (λ i, if decide (r = Z.of_nat i) then 1 else 0) k n
  = if decide (Z.of_nat k ≤ r < Z.of_nat (k + n)) then 1 else 0.
Proof.
  revert k. induction n as [| n IH]; intros k; simpl.
  - rewrite decide_False; [done | lia].
  - rewrite IH. repeat case_decide; lia.
Qed.

(** The cells of rows [k], ..., [k + n - 1], row by row, are all the cells
    when every cell lies in one of these rows. *)
Lemma sumf_cols cs k n :
  (∀ rc, rc ∈ cs → Z.of_nat k ≤ rc.1 < Z.of_nat (k + n)) →
  sumf (λ i, Z.of_nat (length (cols i cs))) k n = Z.of_nat (length cs).
Proof.
  induction cs as [| [r c] cs IH]; intros Hin.
  - apply sumf_zero.
  - rewrite (sumf_ext _ (λ i, (if decide (r = Z.of_nat i) then 1 else 0)
                              + Z.of_nat (length (cols i cs)))).
    + rewrite sumf_add, sumf_one, IH by (intros; apply Hin; by right).
      rewrite decide_True by (apply (Hin (r, c)); left). simpl length. lia.
    + intros i. unfold cols. rewrite filter_cons. simpl.
      case_decide; [rewrite fmap_cons; simpl length |]; lia.
Qed.

Lemma nz_grid_rows f (g : Grid) k :
  (∀ i row, g !! i = Some row → nz row = f (k + i)%nat) →
  nz_grid g = sumf f k (length g).
Proof.
  revert k. induction g as [| row g IH]; intros k Hrows; simpl; [done |].
  rewrite (Hrows 0%nat row) by done. rewrite Nat.add_0_r. f_equal.
  apply IH. intros i row' Hi. rewrite (Hrows (S i) row') by done.
  f_equal. lia.
Qed.

(** *** Cells shared by two ships *)

Lemma cover_pos cs rc : (1 ≤ cover cs rc)%nat ↔ rc ∈ cs.
Proof.
  unfold cover. split.
  - intros H. destruct (filter (λ x, x = rc) cs) as [| x l] eqn:E;
      [simpl in H; lia |].
    assert (Hx : x ∈ filter (λ x, x = rc) cs) by (rewrite E; left).
    apply list_elem_of_filter in Hx as [-> Hx]. done.
  - intros H.
    assert (Hx : rc ∈ filter (λ x, x = rc) cs) by (by apply list_elem_of_filter).
    destruct (filter (λ x, x = rc) cs); [by apply elem_of_nil in Hx | simpl; lia].
Qed.

Lemma cover_ship_cells t s rc : (cover (ship_cells t s) rc ≤ 1)%nat.
Proof. rewrite cover_NoDup by apply ship_cells_NoDup. case_decide; lia. Qed.

Lemma cols_elem i c cs : c ∈ cols i cs ↔ (Z.of_nat i, c) ∈ cs.
Proof.
  unfold cols. rewrite list_elem_of_fmap. split.
  - intros ([r c'] & -> & Hin). apply list_elem_of_filter in Hin as [Hr Hin].
    simpl in *. by subst.
  - intros Hin. exists (Z.of_nat i, c). split; [done |].
    by apply list_elem_of_filter.
Qed.

(** A cell occurs twice among the cells of the payload exactly when two
    ships share it. *)
Lemma cover_shared (p : Payload) rc :
  NoDup (keys p) → (2 ≤ cover (cells_of p) rc)%nat ↔ shared p rc.
Proof.
  destruct rc as [r c]. unfold keys.
  induction p as [| [k s] p IH]; intros Hnd.
  - split; [unfold cover; simpl; lia |].
    intros (t & t' & s & s' & _ & Hin & _). by apply elem_of_nil in Hin.
  - simpl in Hnd. apply NoDup_cons in Hnd as [Hk Hnd]. specialize (IH Hnd).
    assert (Hfresh : ∀ t' s', (ShipType_value t', s') ∈ p → ShipType_value t' ≠ k).
    { intros t' s' Hin <-. apply Hk. apply list_elem_of_fmap.
      by exists (ShipType_value t', s'). }
    unfold cells_of. cbn [fmap list_fmap concat fst snd]. fold (cells_of p).
    rewrite cover_app. split.
    + intros Hc. destruct (decide (2 ≤ cover (cells_of p) (r, c))%nat) as [H2 | H2].
      * apply IH in H2 as (t & t' & s1 & s2 & Hne & H1 & H1' & Hcov).
        exists t, t', s1, s2. split; [done |]. split; [by right |].
        split; [by right | done].
      * destruct (ShipType_of k) as [t |] eqn:Ht;
          [| unfold cover at 1 in Hc; simpl in Hc; lia].
        pose proof (cover_ship_cells t s (r, c)) as Hle.
        assert (H1 : (r, c) ∈ ship_cells t s) by (apply cover_pos; lia).
        assert (H1' : (r, c) ∈ cells_of p) by (apply cover_pos; lia).
        apply cells_of_elem in H1' as (t' & s' & Hin' & Hc').
        apply ShipType_of_Some in Ht as ->.
        exists t, t', s, s'. split.
        { intros ->. by apply (Hfresh t' s'). }
        split; [left |]. split; [by right |].
        by rewrite <- !ship_cells_covers.
    + intros (t & t' & s1 & s2 & Hne & H1 & H2 & Hc1 & Hc2). simpl in Hc1, Hc2.
      apply ship_cells_covers in Hc1, Hc2.
      apply elem_of_cons in H1 as [[= <- <-] | H1];
        apply elem_of_cons in H2 as [[= Hk2 <-] | H2].
      * apply ShipType_value_inj in Hk2. congruence.
      * rewrite ShipType_of_value.
        assert ((r, c) ∈ cells_of p) by (apply cells_of_elem; eauto).
        apply cover_pos in Hc1. apply cover_pos in H. lia.
      * rewrite <- Hk2, ShipType_of_value.
        assert ((r, c) ∈ cells_of p) by (apply cells_of_elem; eauto).
        apply cover_pos in Hc2. apply cover_pos in H. lia.
      * assert (2 ≤ cover (cells_of p) (r, c))%nat; [| lia].
        apply IH. exists t, t', s1, s2. by rewrite <- !ship_cells_covers.
Qed.

Lemma NoDup_cover {A} `{EqDecision A} (l : list A) :
  (∀ x, length (filter (λ y, y = x) l) ≤ 1)%nat → NoDup l.
Proof.
  induction l as [| a l IH]; intros Hc; [apply NoDup_nil_2 |].
  apply NoDup_cons. split.
  - intros Hin. specialize (Hc a). rewrite filter_cons_True in Hc by done.
    assert (Ha : a ∈ filter (λ y, y = a) l) by (by apply list_elem_of_filter).
    destruct (filter (λ y, y = a) l); [by apply elem_of_nil in Ha |].
    simpl in Hc. lia.
  - apply IH. intros x. specialize (Hc x). rewrite filter_cons in Hc.
    case_decide; simpl in Hc; lia.
Qed.

(** Without shared cells, the columns written in a row are distinct. *)
Lemma cols_NoDup (p : Payload) i :
  NoDup (keys p) → (∀ rc, ¬ shared p rc) → NoDup (cols i (cells_of p)).
Proof.
  intros Hnd Hno. unfold cols. apply NoDup_fmap_2_strong.
  - intros [r c] [r' c'] H1 H2 Heq.
    apply list_elem_of_filter in H1 as [H1 _].
    apply list_elem_of_filter in H2 as [H2 _]. simpl in *. congruence.
  - apply NoDup_filter, NoDup_cover. intros rc.
    destruct (decide (2 ≤ cover (cells_of p) rc)%nat) as [H2 | H2].
    + apply cover_shared in H2; [| done]. by destruct (Hno rc).
    + unfold cover in H2. lia.
Qed.

(** The cells of the three ships are nine in number. *)
Lemma cells_of_length N (p : Payload) :
  NoDup (keys p) → well_shaped N p → length (cells_of p) = 9%nat.
Proof.
  intros Hnd Hws.
  destruct (well_shaped_three N p Hnd Hws)
    as (t1 & t2 & t3 & s1 & s2 & s3 & -> & H12 & H13 & H23).
  destruct Hws as [_ Hent].
  destruct (Hent (ShipType_value t1) s1) as (x1 & y1 & Ho1 & _); [left |].
  destruct (Hent (ShipType_value t2) s2) as (x2 & y2 & Ho2 & _);
    [right; left |].
  destruct (Hent (ShipType_value t3) s3) as (x3 & y3 & Ho3 & _);
    [right; right; left |].
  unfold cells_of. cbn [fmap list_fmap concat fst snd].
  rewrite !ShipType_of_value, !length_app. simpl length.
  pose proof (ship_cells_length t1 s1 _ _ Ho1).
  pose proof (ship_cells_length t2 s2 _ _ Ho2).
  pose proof (ship_cells_length t3 s3 _ _ Ho3).
  destruct t1, t2, t3; simpl in *; try done; lia.
Qed.

(** *** The claims on the validator *)

(** The rows of the populated grid, when every cell of the ships lies in a
    row of the board: the lookup of a cell of the board. *)
Lemma populated_lookup N (p : Payload) (g : Grid) i row j v :
  (∀ i row, g !! i = Some row
     ↔ (i < Z.to_nat N)%nat
       ∧ row = row_fold (cols i (cells_of p)) (zero_row N)) →
  g !! i = Some row → Z.of_nat (length row) = N → row !! j = Some v →
  v = Some (Num (Z.of_nat (cover (cells_of p) (Z.of_nat i, Z.of_nat j)))).
Proof.
  intros Hrows Hi Hlen Hj. apply Hrows in Hi as [Hi ->].
  apply lookup_lt_Some in Hj as Hjlt.
  rewrite populated_slot in Hj by lia. congruence.
Qed.

(** C3: a payload that holds one placement per ship type, with origins in
    the board and one of the two orientations, whose ships lie within the
    board and share no cell, is returned as it is. The size of the board is
    a safe integer. *)
Theorem valid_placement_accepted N (p : Payload) :
  N - 1 ≤ MAX_SAFE_INTEGER →
  NoDup (keys p) → one_per_type p → origins_in_board N p →
  within_board N p → disjoint_ships p →
  validateShipPlacement N p = inr p.
Proof.
  unfold one_per_type, origins_in_board, within_board, disjoint_ships.
  intros HN Hnd Hkeys Hent Hin Hno.
  assert (Hws : well_shaped N p).
  { split; [done |]. intros k s Hks.
    destruct (Hent k s Hks) as (x & y & Ho & Hx & Hy & Hor).
    exists x, y. repeat split; try done; try lia. intros Hempty.
    rewrite Hempty in Hor.
    apply elem_of_cons in Hor as [Hor | Hor]; [done |].
    apply elem_of_cons in Hor as [Hor | Hor]; [done |].
    by apply elem_of_nil in Hor. }
  assert (Hcells : ∀ rc, rc ∈ cells_of p → 0 ≤ rc.1 ≤ N - 1 ∧ 0 ≤ rc.2 ≤ N - 1).
  { intros [r c] Hrc. apply cells_of_elem in Hrc as (t & s & Hts & Hrc).
    apply ship_cells_covers in Hrc. by apply (Hin t s). }
  unfold validateShipPlacement.
  rewrite (well_shaped_schema_accepts N p HN Hnd Hws).
  destruct (populated_grid N p Hnd Hws) as (g & -> & Hlen & Hrows).
  { intros rc Hrc. by apply Hcells. }
  unfold bind.
  assert (Hlens : ∀ i row, g !! i = Some row → Z.of_nat (length row) = N).
  { intros i row Hi. apply Hrows in Hi as [Hi ->].
    rewrite row_fold_length_in; unfold zero_row; rewrite length_replicate;
      [lia |].
    intros c Hc. apply cols_elem in Hc. apply Hcells in Hc. simpl in Hc. lia. }
  rewrite (scan_grid_clean N).
  - assert (Hnz : nz_grid g = 9); [| rewrite Hnz; by rewrite decide_True].
    rewrite (nz_grid_rows (λ i, Z.of_nat (length (cols i (cells_of p)))) g 0).
    + rewrite sumf_cols; [by rewrite (cells_of_length N) |].
      intros rc Hrc. apply Hcells in Hrc. lia.
    + intros i row Hi. apply Hrows in Hi as [Hi ->].
      rewrite nz_row_fold.
      * unfold zero_row. by rewrite nz_replicate_zero.
      * by apply cols_NoDup.
      * intros c Hc. apply cols_elem in Hc. apply Hcells in Hc. simpl in Hc.
        split; [lia |]. unfold zero_row. apply lookup_replicate_2. lia.
  - intros row Hrow. apply list_elem_of_lookup in Hrow as [i Hi].
    split; [by apply (Hlens i) |].
    intros v Hv. apply list_elem_of_lookup in Hv as [j Hj].
    rewrite (populated_lookup N p g i row j v Hrows Hi (Hlens i row Hi) Hj).
    simpl. apply Z.ltb_ge.
    destruct (decide (2 ≤ cover (cells_of p) (Z.of_nat i, Z.of_nat j))%nat)
      as [H2 | H2]; [| lia].
    apply cover_shared in H2; [| done]. by destruct (Hno _ H2).
Qed.


(** C1, amended: in a payload that passes the schema, let a horizontal ship
    reach past the last column, let the ships that are not horizontal stay
    within the rows of the board, and let no cell of the board in a row above
    that ship be shared by two ships; then the validator fails with the error
    of a ship over the edge of the board. *)
Theorem horizontal_overflow_reported N (p : Payload) t0 s0 x0 y0 :
  NoDup (keys p) →
  ShipsLockedSchema N p = [] →
  (ShipType_value t0, s0) ∈ p →
  origin s0 = [x0; y0] → orientation s0 = Horizontal →
  N - 1 < x0 + ship_length t0 - 1 →
  upright_within_rows N p → no_overlap_above N p y0 →
  validateShipPlacement N p = inl OverTheEdge.
Proof.
  unfold upright_within_rows, no_overlap_above.
  intros Hnd Hschema Hin0 Ho0 Hh0 Hover Hvert Habove.
  pose proof (schema_accepts_well_shaped N p Hnd Hschema) as Hws.
  assert (Hcells : ∀ rc, rc ∈ cells_of p → 0 ≤ rc.1 ≤ N - 1 ∧ 0 ≤ rc.2).
  { intros [r c] Hrc. apply cells_of_elem in Hrc as (t & s & Hts & Hrc).
    apply ship_cells_covers in Hrc as (x & y & Ho & Hcov).
    destruct (proj2 Hws _ _ Hts) as (x' & y' & Ho' & Hx & Hy & _).
    rewrite Ho in Ho'. injection Ho' as <- <-. simpl.
    destruct (decide (orientation s = Horizontal)) as [Hh | Hh]; [lia |].
    specialize (Hvert t s x y Hts Ho Hh). lia. }
  destruct (proj2 Hws _ _ Hin0) as (x' & y' & Ho' & Hx0 & Hy0 & _).
  rewrite Ho0 in Ho'. injection Ho' as <- <-.
  unfold validateShipPlacement. rewrite Hschema.
  destruct (populated_grid N p Hnd Hws) as (g & -> & Hlen & Hrows).
  { intros rc Hrc. by apply Hcells. }
  unfold bind.
  rewrite (scan_grid_edge N 0 g 0 (Z.to_nat y0)
             (row_fold (cols (Z.to_nat y0) (cells_of p)) (zero_row N)));
    [done | | |].
  - apply Hrows. split; [lia | done].
  - assert (Hc : x0 + ship_length t0 - 1 ∈ cols (Z.to_nat y0) (cells_of p)).
    { apply cols_elem. rewrite Z2Nat.id by lia. apply cells_of_elem.
      exists t0, s0. split; [done |]. apply ship_cells_covers.
      exists x0, y0. split; [done |]. rewrite decide_True by done.
      destruct t0; simpl; lia. }
    apply (row_fold_length_gt _ (zero_row N)) in Hc; lia.
  - intros k' row' v Hk' Hrow' Hlen' Hv.
    apply list_elem_of_lookup in Hv as [j Hj].
    rewrite (populated_lookup N p g k' row' j v Hrows Hrow' Hlen' Hj).
    simpl. apply Z.ltb_ge.
    destruct (decide (2 ≤ cover (cells_of p) (Z.of_nat k', Z.of_nat j))%nat)
      as [H2 | H2]; [| lia].
    apply cover_shared in H2; [| done].
    apply lookup_lt_Some in Hj.
    specialize (Habove _ _ H2). lia.
Qed.

(** *** Concrete payloads on a board of ten by ten *)

Lemma one_per_type_intro (s1 s2 s3 : ShipData) :
  one_per_type [("Battleship", s1); ("Destroyer", s2); ("Submarine", s3)].
Proof.
  intros k. split.
  - intros H. unfold keys in H. simpl in H.
    apply elem_of_cons in H as [-> | H]; [by exists Battleship |].
    apply elem_of_cons in H as [-> | H]; [by exists Destroyer |].
    apply elem_of_cons in H as [-> | H]; [by exists Submarine |].
    by apply elem_of_nil in H.
  - intros [t ->]. unfold keys. simpl.
    destruct t; [left | right; left | right; right; left].
Qed.

Lemma keys_NoDup_intro (s1 s2 s3 : ShipData) :
  NoDup (keys [("Battleship", s1); ("Destroyer", s2); ("Submarine", s3)]).
Proof. apply (bool_decide_unpack _). by vm_compute. Qed.

Lemma placement_ok_within : within_board 10 placement_ok.
Proof.
  intros t s r c Hin Hc. destruct t; entry Hin; unfold_covers Hc; lia.
Qed.

Lemma placement_ok_disjoint : disjoint_ships placement_ok.
Proof.
  intros [r c] (t & t' & s & s' & Hne & H1 & H2 & Hc1 & Hc2). simpl in *.
  destruct t, t'; try done; entry H1; entry H2;
    unfold_covers Hc1; unfold_covers Hc2; lia.
Qed.

Lemma origins_in_board_intro x1 y1 x2 y2 x3 y3 o1 o2 o3 :
  0 ≤ x1 ≤ 9 → 0 ≤ y1 ≤ 9 → 0 ≤ x2 ≤ 9 → 0 ≤ y2 ≤ 9 →
  0 ≤ x3 ≤ 9 → 0 ≤ y3 ≤ 9 →
  o1 ∈ [Vertical; Horizontal] → o2 ∈ [Vertical; Horizontal] →
  o3 ∈ [Vertical; Horizontal] →
  origins_in_board 10
    [("Battleship", ship x1 y1 o1); ("Destroyer", ship x2 y2 o2);
     ("Submarine", ship x3 y3 o3)].
Proof.
  intros ????????? k s H. entry H; eexists _, _; (split; [reflexivity |]);
    simpl; repeat split; (done || lia).
Qed.

Lemma valid_placement_accepted_witness :
  10 - 1 ≤ MAX_SAFE_INTEGER
  ∧ NoDup (keys placement_ok) ∧ one_per_type placement_ok
  ∧ origins_in_board 10 placement_ok ∧ within_board 10 placement_ok
  ∧ disjoint_ships placement_ok
  ∧ validateShipPlacement 10 placement_ok = inr placement_ok.
Proof.
  assert (H0 : 10 - 1 ≤ MAX_SAFE_INTEGER) by (unfold MAX_SAFE_INTEGER; lia).
  assert (H1 : NoDup (keys placement_ok)) by apply keys_NoDup_intro.
  assert (H2 : one_per_type placement_ok) by apply one_per_type_intro.
  assert (H3 : origins_in_board 10 placement_ok).
  { apply origins_in_board_intro; try lia;
      [right; left | right; left | left]. }
  pose proof placement_ok_within as H4.
  pose proof placement_ok_disjoint as H5.
  repeat (split; [assumption |]).
  exact (valid_placement_accepted 10 placement_ok H0 H1 H2 H3 H4 H5).
Defined.

(** C1, as the specification states it, fails on
    [placement_edge_below_overlap]: the
    battleship starts inside the board and ends outside of it, and the check
    reports the overlap it meets first, in row 0. *)
Lemma edge_claim_fails_below_overlap :
  ShipsLockedSchema 10 placement_edge_below_overlap = []
  ∧ ("Battleship", ship 8 5 Horizontal) ∈ placement_edge_below_overlap
  ∧ (0 ≤ 8 ≤ 10 - 1 ∧ 0 ≤ 5 ≤ 10 - 1)
  ∧ 10 - 1 < 8 + ship_length Battleship - 1
  ∧ validateShipPlacement 10 placement_edge_below_overlap
    = inl (Overlapping 1 0)
  ∧ validateShipPlacement 10 placement_edge_below_overlap ≠ inl OverTheEdge.
Proof.
  split; [by vm_compute |]. split; [left |]. split; [lia |].
  split; [simpl; lia |]. split; [by vm_compute |]. by vm_compute.
Qed.

(** The example of the specification: on a board of ten, a battleship at
    (8, 0) would cover columns 8 to 11. *)
Example edge_error_alone :
  validateShipPlacement 10 placement_edge = inl OverTheEdge.
Proof. by vm_compute. Qed.

(** A ship that reaches past the last row ends the population with the
    error of the language. *)
Example bottom_overflow_type_error :
  validateShipPlacement 10 placement_bottom = inl TypeError.
Proof. by vm_compute. Qed.

Lemma horizontal_overflow_reported_witness :
  NoDup (keys placement_edge_above_overlap)
  ∧ ShipsLockedSchema 10 placement_edge_above_overlap = []
  ∧ ("Battleship", ship 8 5 Horizontal) ∈ placement_edge_above_overlap
  ∧ 10 - 1 < 8 + ship_length Battleship - 1
  ∧ upright_within_rows 10 placement_edge_above_overlap
  ∧ no_overlap_above 10 placement_edge_above_overlap 5
  ∧ validateShipPlacement 10 placement_edge_above_overlap = inl OverTheEdge.
Proof.
  assert (H1 : NoDup (keys placement_edge_above_overlap))
    by apply keys_NoDup_intro.
  assert (H2 : ShipsLockedSchema 10 placement_edge_above_overlap = [])
    by (by vm_compute).
  assert (H3 : ("Battleship", ship 8 5 Horizontal)
               ∈ placement_edge_above_overlap) by left.
  assert (H4 : 10 - 1 < 8 + ship_length Battleship - 1) by (simpl; lia).
  assert (H5 : upright_within_rows 10 placement_edge_above_overlap).
  { intros t s x y Hin Ho Hor. destruct t; entry Hin; done. }
  assert (H6 : no_overlap_above 10 placement_edge_above_overlap 5).
  { intros r c (t & t' & s & s' & Hne & Hi & Hi' & Hc & Hc') _. simpl in *.
    destruct t, t'; try done; entry Hi; entry Hi';
      unfold_covers Hc; unfold_covers Hc'; lia. }
  repeat (split; [assumption |]).
  exact (horizontal_overflow_reported 10 placement_edge_above_overlap
           Battleship (ship 8 5 Horizontal) 8 5 H1 H2 H3 eq_refl eq_refl
           H4 H5 H6).
Defined.


Lemma placement_crossing_shared : shared placement_crossing (3, 2).
Proof.
  exists Destroyer, Submarine, (ship 1 3 Horizontal), (ship 2 2 Vertical).
  split; [done |]. split; [right; left |]. split; [right; right; left |].
  split; (eexists _, _; split; [reflexivity |]; simpl; lia).
Qed.



(** Of the two cells shared in [placement_two_crossings], the error names
    the one in row 0. *)
Example placement_two_crossings_error :
  validateShipPlacement 10 placement_two_crossings = inl (Overlapping 1 0).
Proof. by vm_compute. Qed.

Example placement_crossing_error :
  validateShipPlacement 10 placement_crossing = inl (Overlapping 2 3).
Proof. by vm_compute. Qed.

(** C5: the payload [placement_diagonal] gives the battleship an orientation
    that is neither of the two values of the enumeration; the schema reports
    no violation, the ship is laid out as a vertical one and the payload is
    returned. *)
Theorem diagonal_orientation_accepted :
  (orientation (ship 0 0 "diagonal") ∉ [Vertical; Horizontal])
  ∧ ShipsLockedSchema 10 placement_diagonal = []
  ∧ validateShipPlacement 10 placement_diagonal = inr placement_diagonal.
Proof.
  split; [| split; by vm_compute].
  intros H. simpl in H.
  apply elem_of_cons in H as [H | H]; [done |].
  apply elem_of_cons in H as [H | H]; [done |].
  by apply elem_of_nil in H.
Qed.

(** A row index outside the grid among the increments ends them with the
    error of a read on [undefined]. *)
Lemma incr_all_row_outside cs (g : Grid) :
  (∃ rc, rc ∈ cs ∧ ¬ (0 ≤ rc.1 < Z.of_nat (length g))) →
  incr_all cs g = inl TypeError.
Proof.
  revert g. induction cs as [| [r c] cs IH]; intros g (rc & Hin & Hout).
  - by apply elem_of_nil in Hin.
  - cbn [incr_all fst snd]. unfold grid_incr.
    destruct (Z.ltb_spec r 0) as [| Hr]; [done |].
    destruct (g !! Z.to_nat r) as [row |] eqn:Hrow; [| done].
    unfold bind. apply IH. exists rc. rewrite length_alter.
    split; [| done].
    apply elem_of_cons in Hin as [-> | Hin]; [| done].
    apply lookup_lt_Some in Hrow. simpl in Hout. lia.
Qed.

(** What the code does for a ship that is not horizontal and reaches past the
    last row: whatever the other ships, the population stops on a read on
    [undefined], before the check that raises the error of the edge. *)
Lemma upright_overflow_type_error N (p : Payload) t s x y :
  NoDup (keys p) → ShipsLockedSchema N p = [] →
  (ShipType_value t, s) ∈ p → origin s = [x; y] →
  orientation s ≠ Horizontal → N - 1 < y + ship_length t - 1 →
  validateShipPlacement N p = inl TypeError.
Proof.
  intros Hnd Hschema Hin Ho Hor Hover.
  pose proof (schema_accepts_well_shaped N p Hnd Hschema) as Hws.
  unfold validateShipPlacement. rewrite Hschema.
  rewrite (populate_keys_cells p p) by (by apply (well_shaped_placed N)).
  rewrite incr_all_row_outside; [done |].
  exists (y + ship_length t - 1, x). split.
  - apply cells_of_elem. exists t, s. split; [done |].
    apply ship_cells_covers. exists x, y. split; [done |].
    rewrite decide_False by done. destruct t; simpl; lia.
  - unfold generateEmptyGridArray. rewrite length_replicate. simpl. lia.
Qed.

(** *** The violations the schema lists *)

(** A payload with a violation is refused with all of them. *)
Lemma schema_error_raised N (p : Payload) :
  ShipsLockedSchema N p ≠ [] →
  validateShipPlacement N p = inl (ValidationError (ShipsLockedSchema N p)).
Proof.
  intros H. unfold validateShipPlacement.
  by destruct (ShipsLockedSchema N p).
Qed.

Lemma ship_types_all t : t ∈ ship_types.
Proof. destruct t; [left | right; left | right; right; left]. Qed.

(** Every missing ship type is listed. *)
Lemma schema_lists_missing N (p : Payload) t :
  get (ShipType_value t) p = None →
  {| v_path := [Key (ShipType_value t)]; v_code := any_required |}
  ∈ ShipsLockedSchema N p.
Proof.
  intros Hget. unfold ShipsLockedSchema. apply elem_of_app. left.
  apply elem_of_concat. eexists. split; [left |].
  apply list_elem_of_fmap. exists t. rewrite Hget.
  split; [done | apply ship_types_all].
Qed.

(** Every unknown key is listed. *)
Lemma schema_lists_unknown N (p : Payload) k :
  k ∈ keys p → (∀ t, k ≠ ShipType_value t) →
  {| v_path := [Key k]; v_code := object_unknown |} ∈ ShipsLockedSchema N p.
Proof.
  intros Hk Hun. unfold ShipsLockedSchema. apply elem_of_app. right.
  apply list_elem_of_fmap. exists k. split; [done |].
  apply list_elem_of_filter. split; [| done].
  intros Hin. apply list_elem_of_fmap in Hin as (t & -> & _). by apply (Hun t).
Qed.

Lemma ShipSchema_listed N (p : Payload) t s v :
  get (ShipType_value t) p = Some s →
  v ∈ ShipSchema N [Key (ShipType_value t)] s → v ∈ ShipsLockedSchema N p.
Proof.
  intros Hget Hv. unfold ShipsLockedSchema. apply elem_of_app. left.
  apply elem_of_concat. eexists. split; [exact Hv |].
  apply list_elem_of_fmap. exists t. rewrite Hget.
  split; [done | apply ship_types_all].
Qed.

(** Every component of an origin that is outside the board is listed, under
    its own path. *)
Lemma schema_lists_out_of_range N (p : Payload) t s i z :
  get (ShipType_value t) p = Some s → origin s !! i = Some z →
  ¬ (0 ≤ z ≤ N - 1) →
  ∃ code,
    {| v_path := [Key (ShipType_value t); Key "origin"; Idx i];
       v_code := code |} ∈ ShipsLockedSchema N p.
Proof.
  intros Hget Hi Hz.
  assert (Hn : ∃ code, {| v_path := [Key (ShipType_value t); Key "origin"; Idx i];
                          v_code := code |}
                       ∈ number_schema N
                           [Key (ShipType_value t); Key "origin"; Idx i] z).
  { unfold number_schema. destruct (_ || _); [eexists; left |].
    destruct (Z.ltb_spec z 0); [eexists; left |].
    destruct (Z.ltb_spec (N - 1) z); [eexists; left | lia]. }
  destruct Hn as [code Hcode]. exists code.
  apply (ShipSchema_listed N p t s _ Hget).
  unfold ShipSchema, origin_schema. apply elem_of_app. left.
  apply elem_of_app. left. apply elem_of_concat. eexists. split; [exact Hcode |].
  apply elem_of_lookup_imap. exists i, z. done.
Qed.

(** An empty orientation is listed. *)
Lemma schema_lists_empty_orientation N (p : Payload) t s :
  get (ShipType_value t) p = Some s → orientation s = "" →
  {| v_path := [Key (ShipType_value t); Key "orientation"];
     v_code := string_empty |} ∈ ShipsLockedSchema N p.
Proof.
  intros Hget Hor. apply (ShipSchema_listed N p t s _ Hget).
  unfold ShipSchema. apply elem_of_app. right.
  unfold orientation_schema. rewrite Hor. simpl. left.
Qed.

End ValidationsFacts.

(** * Further properties *)

(** ** The match *)

Module MatchInstanceMore.
Import MatchInstance MatchSamples MatchRuns.

Lemma addPlayer_fields m p :
  uuid (addPlayer m p) = uuid m ∧ playerA (addPlayer m p) = playerA m
  ∧ playerB (addPlayer m p) = Some (getUUID p).
Proof. unfold addPlayer. simpl. by destruct (_ && _). Qed.

Lemma addPlayer_keeps_ready m p : ready m = true → ready (addPlayer m p) = true.
Proof. intros H. unfold addPlayer. simpl. by destruct (_ && _). Qed.

(** X1: the opponent lookup is an involution on its results: when the
    lookup for a player gives an identity, the lookup for a player of that
    identity gives back the identity of the first. *)
Theorem opponent_of_opponent m p q o :
  getPlayerOpponentUUID m p = inr (Some o) → getUUID q = o →
  getPlayerOpponentUUID m q = inr (Some (getUUID p)).
Proof.
  unfold getPlayerOpponentUUID. intros H Hq. rewrite Hq.
  destruct (decide (getUUID p = playerA m)) as [Hp | Hp].
  - injection H as HB. rewrite HB.
    destruct (decide (o = playerA m)) as [Ho | Ho]; [congruence |].
    rewrite decide_True by done. by rewrite Hp.
  - destruct (decide (Some (getUUID p) = playerB m)) as [HB | HB]; [| done].
    injection H as <-. rewrite decide_True by done. by rewrite <- HB.
Qed.

Lemma opponent_of_opponent_witness :
  let m := addPlayer alice_alone bob in
  getPlayerOpponentUUID m bob = inr (Some "alice")
  ∧ getUUID (player_of "alice") = "alice"
  ∧ getPlayerOpponentUUID m (player_of "alice") = inr (Some (getUUID bob)).
Proof.
  intros m. split; [reflexivity |]. split; [reflexivity |].
  apply (opponent_of_opponent m bob (player_of "alice") "alice"); reflexivity.
Defined.

(** X2: the lookup throws exactly for a player whose identity is in neither
    slot, and then the error carries that identity and the identifier of the
    match. *)
Theorem opponent_error_iff m p e :
  getPlayerOpponentUUID m p = inl e
  ↔ (getUUID p ≠ playerA m ∧ playerB m ≠ Some (getUUID p))
    ∧ e = NotAssociated (getUUID p) (uuid m).
Proof.
  unfold getPlayerOpponentUUID.
  destruct (decide (getUUID p = playerA m)) as [Hp | Hp].
  - split; [done | intros [[? _] _]; done].
  - destruct (decide (Some (getUUID p) = playerB m)) as [HB | HB].
    + split; [done | intros [[_ ?] _]; congruence].
    + split.
      * intros [= <-]. repeat split; congruence.
      * intros [_ ->]. done.
Qed.

(** X3: in a match whose second slot is empty the lookup for the first
    participant does not throw: it returns [undefined]. *)
Theorem opponent_undefined_when_joinable m p :
  isJoinable m = true → getUUID p = playerA m →
  getPlayerOpponentUUID m p = inr None.
Proof.
  unfold isJoinable, getPlayerOpponentUUID. intros Hj Hp.
  rewrite decide_True by done. by destruct (playerB m).
Qed.

Lemma opponent_undefined_when_joinable_witness :
  isJoinable alice_alone = true
  ∧ getUUID (player_of "alice") = playerA alice_alone
  ∧ getPlayerOpponentUUID alice_alone (player_of "alice") = inr None.
Proof.
  split; [reflexivity |]. split; [reflexivity |].
  apply (opponent_undefined_when_joinable alice_alone (player_of "alice"));
    reflexivity.
Defined.

(** X4: after any sequence of [addPlayer] calls that is not empty, the
    second slot holds the identity of the last player added, the first slot
    and the identifier of the match are what they were, and the match is not
    joinable. *)
Theorem join_all_last m ps p :
  let m' := join_all m (ps ++ [p]) in
  playerB m' = Some (getUUID p) ∧ playerA m' = playerA m
  ∧ uuid m' = uuid m ∧ isJoinable m' = false.
Proof.
  simpl. unfold join_all. rewrite foldl_snoc.
  assert (Hk : ∀ m, playerA (foldl addPlayer m ps) = playerA m
                    ∧ uuid (foldl addPlayer m ps) = uuid m).
  { induction ps as [| q ps IH]; intros m0; simpl; [done |].
    destruct (IH (addPlayer m0 q)) as [-> ->].
    destruct (addPlayer_fields m0 q) as (-> & -> & _). done. }
  destruct (addPlayer_fields (foldl addPlayer m ps) p) as (Hu & Ha & Hb).
  destruct (Hk m) as [HA HU].
  unfold isJoinable. rewrite Hb, Ha, Hu. by rewrite HA, HU.
Qed.

(** X5: [addPlayer] never takes the readiness back: a match that is ready
    stays ready under any sequence of calls. *)
Theorem ready_is_kept m ps : ready m = true → ready (join_all m ps) = true.
Proof.
  unfold join_all. revert m. induction ps as [| p ps IH]; intros m H; simpl;
    [done |].
  apply IH. by apply addPlayer_keeps_ready.
Qed.

Lemma ready_is_kept_witness :
  ready (addPlayer alice_alone bob) = true
  ∧ ready (join_all (addPlayer alice_alone bob) [carol; player_of ""]) = true.
Proof.
  split; [reflexivity |].
  apply (ready_is_kept (addPlayer alice_alone bob) [carol; player_of ""]).
  reflexivity.
Defined.

(** X6: adding the same player twice in a row is the same as adding the
    player once. *)
Theorem addPlayer_twice m p : addPlayer (addPlayer m p) p = addPlayer m p.
Proof.
  unfold addPlayer. simpl.
  destruct (truthy (playerA m) && truthy (getUUID p)) eqn:E; simpl;
    by rewrite E.
Qed.

(** X7: with an empty identity in play the second slot is filled and the
    readiness is left as it was: the match is no longer joinable without
    having become ready. *)
Theorem addPlayer_empty_identity m p :
  playerA m = "" ∨ getUUID p = "" →
  ready (addPlayer m p) = ready m ∧ isJoinable (addPlayer m p) = false.
Proof.
  intros H. unfold addPlayer, isJoinable. simpl.
  assert (E : truthy (playerA m) && truthy (getUUID p) = false).
  { destruct H as [-> | ->]; [done |]. by rewrite andb_false_r. }
  by rewrite E.
Qed.

Lemma addPlayer_empty_identity_witness :
  (playerA alice_alone = "" ∨ getUUID (player_of "") = "")
  ∧ ready (addPlayer alice_alone (player_of "")) = ready alice_alone
  ∧ isJoinable (addPlayer alice_alone (player_of "")) = false.
Proof.
  assert (H : playerA alice_alone = "" ∨ getUUID (player_of "") = "")
    by (right; reflexivity).
  split; [exact H |].
  exact (addPlayer_empty_identity alice_alone (player_of "") H).
Defined.

(** X8: [toJSON] and [from] are inverse to each other on the fields of the
    class: readiness and both identities survive the round trip in either
    direction. *)
Theorem json_round_trip fresh m d :
  (let m' := from fresh (toJSON m) in
   ready m' = ready m ∧ playerA m' = playerA m ∧ playerB m' = playerB m)
  ∧ (let d' := toJSON (from fresh d) in
     d_ready d' = d_ready d ∧ d_playerA d' = d_playerA d
     ∧ d_playerB d' = d_playerB d).
Proof. by repeat split. Qed.

End MatchInstanceMore.

(** ** The notifications *)

Module CloudEventsMore.
Import CloudEvents CloudRuns.

Lemma perform_one c out :
  ∃ posted, perform c out = out ++ posted
    ∧ length posted = (if posts c then 1 else 0)%nat
    ∧ ∀ e, e ∈ posted →
        ce_source e = source
        ∧ ce_type e ∈ type_value <$> [Hit; Miss; Sink; Win].
Proof.
  destruct c; simpl; unfold hit, miss, sink, win, lose, bonus, sendEvent;
    try (eexists [_]; split; [reflexivity |]; split; [reflexivity |];
         intros e He; apply list_elem_of_singleton in He as ->;
         split; [reflexivity |]; simpl).
  - left.
  - right; left.
  - right; right; left.
  - right; right; right; left.
  - right; right; right; left.
  - exists []. rewrite app_nil_r. split; [done |]. split; [done |].
    intros e He. by apply elem_of_nil in He.
Qed.

(** X9: whatever the functions of the module are called in whatever order,
    the events posted before stay as they were, one event is added per call
    other than [bonus], and every event added has the source of the module
    and one of the types hit, miss, sink and win: no event of type lose or
    bonus is ever posted. *)
Theorem posted_events cs out :
  ∃ posted, perform_all cs out = out ++ posted
    ∧ length posted = length (filter (λ c, posts c = true) cs)
    ∧ ∀ e, e ∈ posted →
        ce_source e = source
        ∧ ce_type e ∈ type_value <$> [Hit; Miss; Sink; Win]
        ∧ ce_type e ≠ type_value Lose ∧ ce_type e ≠ type_value Bonus.
Proof.
  unfold perform_all. revert out. induction cs as [| c cs IH]; intros out.
  - exists []. rewrite app_nil_r. split; [done |]. split; [done |].
    intros e He. by apply elem_of_nil in He.
  - simpl. destruct (perform_one c out) as (p1 & -> & Hl1 & Hp1).
    destruct (IH (out ++ p1)) as (p2 & -> & Hl2 & Hp2).
    exists (p1 ++ p2). rewrite app_assoc. split; [done |]. split.
    + rewrite length_app, Hl1, Hl2, filter_cons.
      destruct (posts c); simpl; done.
    + intros e He. apply elem_of_app in He as [He | He]; [| by apply Hp2].
      destruct (Hp1 e He) as [Hs Ht]. split; [done |]. split; [done |].
      simpl in Ht. split; intros Heq; rewrite Heq in Ht;
        repeat (apply elem_of_cons in Ht as [Ht | Ht]; [done |]);
        by apply elem_of_nil in Ht.
Qed.

End CloudEventsMore.

(** ** The placement validator *)

Module ValidationsMore.
Import Validations Vocabulary ValidationRuns ValidationsFacts.

(** *** What the loops can end with *)

Lemma incr_all_error cs (g : Grid) e : incr_all cs g = inl e → e = TypeError.
Proof.
  revert g. induction cs as [| [r c] cs IH]; intros g; [done |].
  cbn [incr_all fst snd]. unfold grid_incr.
  destruct (r <? 0); [by intros [= <-] |].
  destruct (g !! Z.to_nat r); [| by intros [= <-]].
  unfold bind. apply IH.
Qed.

Lemma incr_all_rows_inside cs (g g' : Grid) :
  incr_all cs g = inr g' → ∀ rc, rc ∈ cs → 0 ≤ rc.1 < Z.of_nat (length g).
Proof.
  revert g. induction cs as [| [r c] cs IH]; intros g H rc Hin.
  - by apply elem_of_nil in Hin.
  - cbn [incr_all fst snd] in H. unfold grid_incr in H.
    destruct (Z.ltb_spec r 0) as [| Hr]; [done |].
    destruct (g !! Z.to_nat r) as [row |] eqn:Hrow; [| done].
    unfold bind in H. apply elem_of_cons in Hin as [-> | Hin].
    + apply lookup_lt_Some in Hrow. simpl. lia.
    + specialize (IH _ H rc Hin). by rewrite length_alter in IH.
Qed.

Lemma scan_row_inl i j row occ e :
  scan_row i j row occ = inl e →
  ∃ k v, e = Overlapping (j + k) i ∧ row !! k = Some v ∧ gt1 v = true.
Proof.
  revert j occ. induction row as [| w row IH]; intros j occ H; [done |].
  simpl in H. destruct (gt1 w) eqn:Hw.
  - injection H as <-. exists 0%nat, w. by rewrite Nat.add_0_r.
  - destruct (IH _ _ H) as (k & v & -> & Hk & Hv).
    exists (S k), v. by rewrite Nat.add_succ_r.
Qed.

Lemma scan_grid_inr N i (g : Grid) occ occ' :
  scan_grid N i g occ = inr occ' →
  ∀ row, row ∈ g →
    Z.of_nat (length row) = N ∧ ∀ v, v ∈ row → gt1 v = false.
Proof.
  revert i occ. induction g as [| r0 g IH]; intros i occ H row Hrow.
  - by apply elem_of_nil in Hrow.
  - simpl in H.
    destruct (decide (Z.of_nat (length r0) = N)) as [Hlen |]; [| done].
    destruct (scan_row i 0 r0 occ) as [e | occ1] eqn:Hs; [done |].
    unfold bind in H. apply elem_of_cons in Hrow as [-> | Hrow].
    + split; [done |]. by eapply scan_row_inr.
    + by eapply IH.
Qed.

Lemma scan_grid_inl N i (g : Grid) occ e :
  scan_grid N i g occ = inl e →
  (e = OverTheEdge ∧ ∃ row, row ∈ g ∧ Z.of_nat (length row) ≠ N)
  ∨ ∃ a b row v, e = Overlapping b (i + a) ∧ g !! a = Some row
       ∧ Z.of_nat (length row) = N ∧ row !! b = Some v ∧ gt1 v = true.
Proof.
  revert i occ. induction g as [| r0 g IH]; intros i occ H; [done |].
  simpl in H. destruct (decide (Z.of_nat (length r0) = N)) as [Hlen | Hlen].
  - destruct (scan_row i 0 r0 occ) as [e' | occ1] eqn:Hs.
    + injection H as <-. right.
      destruct (scan_row_inl _ _ _ _ _ Hs) as (k & v & -> & Hk & Hv).
      exists 0%nat, k, r0, v. by rewrite Nat.add_0_r.
    + unfold bind in H. destruct (IH _ _ H) as [[-> (row & Hrow & Hne)] | Hov].
      * left. split; [done |]. exists row. split; [by right | done].
      * right. destruct Hov as (a & b & row & v & -> & Ha & Hl & Hb & Hv).
        exists (S a), b, row, v. by rewrite Nat.add_succ_r.
  - injection H as <-. left. split; [done |]. exists r0. split; [left | done].
Qed.

(** *** After the schema *)

Lemma validate_check_cells N (p : Payload) :
  NoDup (keys p) → ShipsLockedSchema N p = [] →
  validateShipPlacement N p = check_cells N p.
Proof.
  intros Hnd Hschema. unfold validateShipPlacement, check_cells.
  rewrite Hschema.
  rewrite (populate_keys_cells p p); [done |].
  apply (well_shaped_placed N); [done |].
  by apply schema_accepts_well_shaped.
Qed.

Lemma validate_schema_error N (p : Payload) :
  ShipsLockedSchema N p ≠ [] →
  validateShipPlacement N p = inl (ValidationError (ShipsLockedSchema N p)).
Proof.
  intros H. unfold validateShipPlacement. by destruct (ShipsLockedSchema N p).
Qed.

Lemma cells_nonneg N (p : Payload) rc :
  well_shaped N p → rc ∈ cells_of p → 0 ≤ rc.1 ∧ 0 ≤ rc.2.
Proof.
  intros [_ Hent] Hrc. destruct rc as [r c].
  apply cells_of_elem in Hrc as (t & s & Hts & Hrc).
  apply ship_cells_covers in Hrc as (x & y & Ho & Hcov).
  destruct (Hent _ _ Hts) as (x' & y' & Ho' & Hx & Hy & _).
  rewrite Ho in Ho'. injection Ho' as <- <-. simpl.
  destruct (decide (orientation s = Horizontal)); lia.
Qed.

(** The grid the population gives, when it gives one. *)
Lemma populated_rows N (p : Payload) (g : Grid) :
  well_shaped N p →
  incr_all (cells_of p) (generateEmptyGridArray N) = inr g →
  (∀ rc, rc ∈ cells_of p → 0 ≤ rc.1 ≤ N - 1)
  ∧ ∀ i row, g !! i = Some row
      ↔ (i < Z.to_nat N)%nat
        ∧ row = row_fold (cols i (cells_of p)) (zero_row N).
Proof.
  intros Hws Hg.
  assert (Hrows : ∀ rc, rc ∈ cells_of p → 0 ≤ rc.1 ≤ N - 1).
  { intros rc Hrc. pose proof (incr_all_rows_inside _ _ _ Hg rc Hrc) as H.
    unfold generateEmptyGridArray in H. rewrite length_replicate in H. lia. }
  split; [done |].
  destruct (incr_all_rows (cells_of p) (generateEmptyGridArray N))
    as (g' & Hg' & Hlen & Hlook).
  { intros rc Hrc. unfold generateEmptyGridArray. rewrite length_replicate.
    specialize (Hrows rc Hrc). lia. }
  rewrite Hg in Hg'. injection Hg' as <-.
  intros i row. rewrite Hlook. unfold generateEmptyGridArray.
  destruct (decide (i < Z.to_nat N)%nat) as [Hi | Hi].
  - rewrite lookup_replicate_2 by done. simpl. unfold zero_row.
    split; [intros [= <-]; done | intros [_ ->]; done].
  - rewrite (proj1 (lookup_replicate_None _ _ _)) by lia. simpl.
    split; [done | intros [? _]; done].
Qed.

(** A grid that passes the check comes from ships within the board that
    share no cell. *)
Lemma clean_grid_valid N (p : Payload) (g : Grid) :
  NoDup (keys p) → well_shaped N p →
  (∀ rc, rc ∈ cells_of p → 0 ≤ rc.1 ≤ N - 1) →
  (∀ i row, g !! i = Some row
     ↔ (i < Z.to_nat N)%nat
       ∧ row = row_fold (cols i (cells_of p)) (zero_row N)) →
  (∀ row, row ∈ g →
     Z.of_nat (length row) = N ∧ ∀ v, v ∈ row → gt1 v = false) →
  within_board N p ∧ disjoint_ships p.
Proof.
  intros Hnd Hws Hrows Hg Hclean.
  assert (Hin : within_board N p).
  { intros t s r c Hts Hcov. apply ship_cells_covers in Hcov.
    assert (Hrc : (r, c) ∈ cells_of p) by (apply cells_of_elem; eauto).
    pose proof (Hrows _ Hrc) as Hr. simpl in Hr.
    destruct (cells_nonneg N p _ Hws Hrc) as [_ Hc]. simpl in Hc.
    split; [done |]. split; [done |].
    set (row := row_fold (cols (Z.to_nat r) (cells_of p)) (zero_row N)).
    assert (Hrow : g !! Z.to_nat r = Some row) by (apply Hg; split; [lia | done]).
    destruct (Hclean row) as [Hlen _]; [by eapply list_elem_of_lookup_2 |].
    assert (Hlt : (Z.to_nat c < length row)%nat).
    { apply row_fold_length_gt; [| done]. apply cols_elem.
      by rewrite Z2Nat.id by lia. }
    lia. }
  split; [done |].
  intros [r c] Hsh.
  assert (Hrc : 0 ≤ r ≤ N - 1 ∧ 0 ≤ c ≤ N - 1).
  { destruct Hsh as (t & _ & s & _ & _ & Hts & _ & Hcov & _).
    by apply (Hin t s). }
  apply cover_shared in Hsh; [| done].
  set (row := row_fold (cols (Z.to_nat r) (cells_of p)) (zero_row N)).
  assert (Hrow : g !! Z.to_nat r = Some row) by (apply Hg; split; [lia | done]).
  assert (Hv : row !! Z.to_nat c
               = Some (Some (Num (Z.of_nat (cover (cells_of p) (r, c)))))).
  { unfold row. rewrite populated_slot by lia. by rewrite !Z2Nat.id by lia. }
  destruct (Hclean row) as [_ Hgt]; [by eapply list_elem_of_lookup_2 |].
  specialize (Hgt _ (list_elem_of_lookup_2 _ _ _ Hv)). simpl in Hgt.
  apply Z.ltb_ge in Hgt. lia.
Qed.

(** The occupied slots of the grid of ships within the board that share no
    cell are nine. *)
Lemma clean_grid_count N (p : Payload) (g : Grid) :
  NoDup (keys p) → well_shaped N p →
  (∀ i row, g !! i = Some row
     ↔ (i < Z.to_nat N)%nat
       ∧ row = row_fold (cols i (cells_of p)) (zero_row N)) →
  length g = Z.to_nat N →
  within_board N p → disjoint_ships p → nz_grid g = 9.
Proof.
  intros Hnd Hws Hg Hlen Hin Hno.
  assert (Hcells : ∀ rc, rc ∈ cells_of p → 0 ≤ rc.1 ≤ N - 1 ∧ 0 ≤ rc.2 ≤ N - 1).
  { intros [r c] Hrc. apply cells_of_elem in Hrc as (t & s & Hts & Hrc).
    apply ship_cells_covers in Hrc. by apply (Hin t s). }
  rewrite (nz_grid_rows (λ i, Z.of_nat (length (cols i (cells_of p)))) g 0).
  - rewrite sumf_cols; [by rewrite (cells_of_length N) |].
    intros rc Hrc. apply Hcells in Hrc. lia.
  - intros i row Hi. apply Hg in Hi as [Hi ->]. rewrite nz_row_fold.
    + unfold zero_row. by rewrite nz_replicate_zero.
    + by apply cols_NoDup.
    + intros c Hc. apply cols_elem in Hc. apply Hcells in Hc. simpl in Hc.
      split; [lia |]. unfold zero_row. apply lookup_replicate_2. lia.
Qed.

Lemma populated_length N (p : Payload) (g : Grid) :
  (∀ i row, g !! i = Some row
     ↔ (i < Z.to_nat N)%nat
       ∧ row = row_fold (cols i (cells_of p)) (zero_row N)) →
  length g = Z.to_nat N.
Proof.
  intros Hg. apply Nat.le_antisymm.
  - destruct (decide (length g ≤ Z.to_nat N)%nat) as [| Hgt]; [done |].
    destruct (lookup_lt_is_Some_2 g (Z.to_nat N)) as [row Hrow]; [lia |].
    apply Hg in Hrow as [? _]. lia.
  - destruct (decide (Z.to_nat N ≤ length g)%nat) as [| Hlt]; [done |].
    assert (Hi : (length g < Z.to_nat N)%nat) by lia.
    pose proof (proj2 (Hg (length g) _) (conj Hi eq_refl)) as Hrow.
    apply lookup_lt_Some in Hrow. lia.
Qed.

(** *** The verdicts of the validator *)

Lemma accepted_characterised N (p : Payload) :
  NoDup (keys p) →
  validateShipPlacement N p = inr p
  ↔ ShipsLockedSchema N p = [] ∧ within_board N p ∧ disjoint_ships p.
Proof.
  intros Hnd. split.
  - intros H.
    destruct (ShipsLockedSchema N p) as [| v d] eqn:Hschema;
      [| by rewrite validate_schema_error in H by (by rewrite Hschema)].
    split; [done |].
    pose proof (schema_accepts_well_shaped N p Hnd Hschema) as Hws.
    rewrite (validate_check_cells N p Hnd Hschema) in H. unfold check_cells in H.
    destruct (incr_all (cells_of p) (generateEmptyGridArray N)) as [e | g] eqn:Hg;
      [done |].
    unfold bind in H.
    destruct (scan_grid N 0 g 0) as [e | occ] eqn:Hscan; [done |].
    destruct (populated_rows N p g Hws Hg) as [Hrows Hlook].
    apply (clean_grid_valid N p g Hnd Hws Hrows Hlook).
    by eapply scan_grid_inr.
  - intros (Hschema & Hin & Hno).
    pose proof (schema_accepts_well_shaped N p Hnd Hschema) as Hws.
    rewrite (validate_check_cells N p Hnd Hschema). unfold check_cells.
    assert (Hcells : ∀ rc, rc ∈ cells_of p
                           → 0 ≤ rc.1 ≤ N - 1 ∧ 0 ≤ rc.2 ≤ N - 1).
    { intros [r c] Hrc. apply cells_of_elem in Hrc as (t & s & Hts & Hrc).
      apply ship_cells_covers in Hrc. by apply (Hin t s). }
    destruct (incr_all_rows (cells_of p) (generateEmptyGridArray N))
      as (g & Hg & _ & _).
    { intros rc Hrc. unfold generateEmptyGridArray. rewrite length_replicate.
      apply Hcells in Hrc. lia. }
    rewrite Hg. unfold bind.
    destruct (populated_rows N p g Hws Hg) as [Hrows Hlook].
    pose proof (populated_length N p g Hlook) as Hlen.
    rewrite (scan_grid_clean N).
    + rewrite (clean_grid_count N p g Hnd Hws Hlook Hlen Hin Hno).
      by rewrite decide_True.
    + intros row Hrow. apply list_elem_of_lookup in Hrow as [i Hi].
      assert (Hl : Z.of_nat (length row) = N).
      { apply Hlook in Hi as [Hi ->].
        rewrite row_fold_length_in; unfold zero_row; rewrite length_replicate;
          [lia |].
        intros c Hc. apply cols_elem in Hc. apply Hcells in Hc.
        simpl in Hc. lia. }
      split; [done |]. intros v Hv.
      apply list_elem_of_lookup in Hv as [j Hj].
      rewrite (populated_lookup N p g i row j v Hlook Hi Hl Hj).
      simpl. apply Z.ltb_ge.
      destruct (decide (2 ≤ cover (cells_of p) (Z.of_nat i, Z.of_nat j))%nat)
        as [H2 | H2]; [| lia].
      apply cover_shared in H2; [| done]. by destruct (Hno _ H2).
Qed.

(** X10: over payloads with distinct keys, the validator returns without
    error exactly for the payloads that pass the schema, whose ships all lie
    within the board and share no cell; an orientation need not be one of the
    two values for that. *)
Theorem accepted_iff N (p : Payload) :
  NoDup (keys p) →
  validateShipPlacement N p = inr p
  ↔ ShipsLockedSchema N p = [] ∧ within_board N p ∧ disjoint_ships p.
Proof. apply accepted_characterised. Qed.

Lemma accepted_iff_witness :
  NoDup (keys placement_diagonal)
  ∧ (validateShipPlacement 10 placement_diagonal = inr placement_diagonal
     ↔ ShipsLockedSchema 10 placement_diagonal = []
       ∧ within_board 10 placement_diagonal
       ∧ disjoint_ships placement_diagonal).
Proof.
  assert (H : NoDup (keys placement_diagonal)) by apply keys_NoDup_intro.
  split; [exact H | exact (accepted_iff 10 placement_diagonal H)].
Defined.

(** X11: over payloads with distinct keys, what the validator returns is the
    payload it was given; a schema error carries the whole list of
    violations; and two of the errors in its code are never raised: the one
    for a size that is not a number and the one for a count of occupied
    squares other than the expected. *)
Theorem validate_outcomes N (p : Payload) :
  NoDup (keys p) →
  (∀ q, validateShipPlacement N p = inr q → q = p)
  ∧ (∀ d, validateShipPlacement N p = inl (ValidationError d) →
       d = ShipsLockedSchema N p ∧ d ≠ [])
  ∧ validateShipPlacement N p ≠ inl SizeNotANumber
  ∧ ∀ occ e, validateShipPlacement N p ≠ inl (OccupiedMismatch occ e).
Proof.
  intros Hnd.
  destruct (ShipsLockedSchema N p) as [| v d0] eqn:Hschema.
  - pose proof (schema_accepts_well_shaped N p Hnd Hschema) as Hws.
    rewrite (validate_check_cells N p Hnd Hschema). unfold check_cells.
    destruct (incr_all (cells_of p) (generateEmptyGridArray N)) as [e | g] eqn:Hg.
    { apply incr_all_error in Hg as ->. unfold bind. by repeat split. }
    unfold bind.
    destruct (scan_grid N 0 g 0) as [e | occ] eqn:Hscan.
    { apply scan_grid_inl in Hscan as [[-> _] | (a & b & _ & _ & -> & _)];
        by repeat split. }
    destruct (populated_rows N p g Hws Hg) as [Hrows Hlook].
    destruct (clean_grid_valid N p g Hnd Hws Hrows Hlook) as [Hin Hno];
      [by eapply scan_grid_inr |].
    pose proof (scan_grid_clean N 0 g 0 (scan_grid_inr N 0 g 0 occ Hscan)) as Hocc.
    rewrite Hscan in Hocc. injection Hocc as ->.
    rewrite (clean_grid_count N p g Hnd Hws Hlook (populated_length N p g Hlook)
               Hin Hno).
    rewrite decide_True by done. repeat split; try done. by intros q [= <-].
  - rewrite validate_schema_error by (by rewrite Hschema). rewrite Hschema.
    split; [done |]. split; [| done]. by intros d [= <-].
Qed.

Lemma validate_outcomes_witness :
  NoDup (keys placement_edge)
  ∧ (∀ q, validateShipPlacement 10 placement_edge = inr q → q = placement_edge)
  ∧ (∀ d, validateShipPlacement 10 placement_edge = inl (ValidationError d) →
       d = ShipsLockedSchema 10 placement_edge ∧ d ≠ [])
  ∧ validateShipPlacement 10 placement_edge ≠ inl SizeNotANumber
  ∧ ∀ occ e, validateShipPlacement 10 placement_edge
             ≠ inl (OccupiedMismatch occ e).
Proof.
  assert (H : NoDup (keys placement_edge)) by apply keys_NoDup_intro.
  split; [exact H | exact (validate_outcomes 10 placement_edge H)].
Defined.

Lemma check_cells_type_error N (p : Payload) :
  well_shaped N p → check_cells N p = inl TypeError → reaches_below N p.
Proof.
  intros Hws H. unfold check_cells in H.
  destruct (incr_all (cells_of p) (generateEmptyGridArray N)) as [e | g] eqn:Hg.
  - clear H.
    destruct (decide (Forall (λ rc : Z * Z, 0 ≤ rc.1 ≤ N - 1) (cells_of p)))
      as [Hall | Hex].
    + destruct (incr_all_rows (cells_of p) (generateEmptyGridArray N))
        as (g & Hg' & _).
      { intros rc Hrc. unfold generateEmptyGridArray. rewrite length_replicate.
        rewrite Forall_forall in Hall. specialize (Hall rc Hrc). lia. }
      congruence.
    + apply not_Forall_Exists in Hex; [| apply _].
      apply Exists_exists in Hex as ([r c] & Hrc & Hout). simpl in Hout.
      pose proof (cells_nonneg N p _ Hws Hrc) as [Hr _]. simpl in Hr.
      apply cells_of_elem in Hrc as (t & s & Hts & Hrc).
      apply ship_cells_covers in Hrc as (x & y & Ho & Hcov).
      destruct (proj2 Hws _ _ Hts) as (x' & y' & Ho' & Hx & Hy & _).
      rewrite Ho in Ho'. injection Ho' as <- <-.
      destruct (decide (orientation s = Horizontal)) as [Hh | Hh]; [lia |].
      exists t, s, x, y. repeat split; try done. lia.
  - unfold bind in H. destruct (scan_grid N 0 g 0) as [e | occ] eqn:Hscan.
    + apply scan_grid_inl in Hscan as [[-> _] | (a & b & _ & _ & -> & _)]; done.
    + by case_decide.
Qed.

(** X12: over payloads with distinct keys whose origins are integers (the
    numbers of a payload are integers here), the error of the language for
    a read on [undefined] is what the validator ends with exactly when the
    payload passes the schema and a ship that is not horizontal reaches past
    the last row, whatever else the payload holds. *)
Theorem type_error_iff N (p : Payload) :
  NoDup (keys p) →
  validateShipPlacement N p = inl TypeError
  ↔ ShipsLockedSchema N p = [] ∧ reaches_below N p.
Proof.
  intros Hnd. split.
  - intros H.
    destruct (ShipsLockedSchema N p) as [| v d] eqn:Hschema;
      [| by rewrite validate_schema_error in H by (by rewrite Hschema)].
    split; [done |].
    rewrite (validate_check_cells N p Hnd Hschema) in H.
    apply (check_cells_type_error N p); [| done].
    by apply schema_accepts_well_shaped.
  - intros (Hschema & t & s & x & y & Hts & Ho & Hor & Hover).
    by apply (upright_overflow_type_error N p t s x y).
Qed.

Lemma type_error_iff_witness :
  NoDup (keys placement_bottom)
  ∧ (validateShipPlacement 10 placement_bottom = inl TypeError
     ↔ ShipsLockedSchema 10 placement_bottom = []
       ∧ reaches_below 10 placement_bottom).
Proof.
  assert (H : NoDup (keys placement_bottom)) by apply keys_NoDup_intro.
  split; [exact H | exact (type_error_iff 10 placement_bottom H)].
Defined.

(** X13: the error of a ship over the edge of the board is raised only for
    a payload that passes the schema and in which a horizontal ship reaches
    past the last column, while no ship that is not horizontal reaches past
    the last row. *)
Theorem edge_error_only_if N (p : Payload) :
  NoDup (keys p) → validateShipPlacement N p = inl OverTheEdge →
  ShipsLockedSchema N p = [] ∧ reaches_right N p ∧ ¬ reaches_below N p.
Proof.
  intros Hnd H.
  destruct (ShipsLockedSchema N p) as [| v d] eqn:Hschema;
    [| by rewrite validate_schema_error in H by (by rewrite Hschema)].
  split; [done |].
  pose proof (schema_accepts_well_shaped N p Hnd Hschema) as Hws.
  split.
  - rewrite (validate_check_cells N p Hnd Hschema) in H. unfold check_cells in H.
    destruct (incr_all (cells_of p) (generateEmptyGridArray N)) as [e | g] eqn:Hg.
    { apply incr_all_error in Hg as ->. done. }
    unfold bind in H. destruct (scan_grid N 0 g 0) as [e | occ] eqn:Hscan;
      [| by case_decide].
    injection H as ->.
    apply scan_grid_inl in Hscan as [[_ (row & Hrow & Hlen)] | (? & ? & ? & ? & ? & _)];
      [| done].
    destruct (populated_rows N p g Hws Hg) as [Hrows Hlook].
    apply list_elem_of_lookup in Hrow as [i Hi].
    apply Hlook in Hi as [Hi ->].
    destruct (decide (Forall (λ c, c < N) (cols i (cells_of p)))) as [Hall | Hex].
    + destruct Hlen. rewrite row_fold_length_in; unfold zero_row;
        rewrite length_replicate; [lia |].
      intros c Hc. rewrite Forall_forall in Hall. specialize (Hall c Hc). lia.
    + apply not_Forall_Exists in Hex; [| apply _].
      apply Exists_exists in Hex as (c & Hc & Hout). simpl in Hout.
      apply cols_elem in Hc.
      apply cells_of_elem in Hc as (t & s & Hts & Hc).
      apply ship_cells_covers in Hc as (x & y & Ho & Hcov).
      destruct (proj2 Hws _ _ Hts) as (x' & y' & Ho' & Hx & Hy & _).
      rewrite Ho in Ho'. injection Ho' as <- <-.
      destruct (decide (orientation s = Horizontal)) as [Hh | Hh]; [| lia].
      exists t, s, x, y. repeat split; try done. lia.
  - intros (t & s & x & y & Hts & Ho & Hor & Hover).
    rewrite (upright_overflow_type_error N p t s x y) in H; done.
Qed.

Lemma edge_error_only_if_witness :
  NoDup (keys placement_edge)
  ∧ validateShipPlacement 10 placement_edge = inl OverTheEdge
  ∧ ShipsLockedSchema 10 placement_edge = []
  ∧ reaches_right 10 placement_edge ∧ ¬ reaches_below 10 placement_edge.
Proof.
  assert (H1 : NoDup (keys placement_edge)) by apply keys_NoDup_intro.
  assert (H2 : validateShipPlacement 10 placement_edge = inl OverTheEdge)
    by (by vm_compute).
  split; [exact H1 |]. split; [exact H2 |].
  exact (edge_error_only_if 10 placement_edge H1 H2).
Defined.

(** X14: when the validator ends with the overlap error, the coordinate in
    the error (column, then row) is a cell of the board that two ships
    share, whatever the other ships do. *)
Theorem overlap_error_names_shared_cell N (p : Payload) j i :
  NoDup (keys p) → validateShipPlacement N p = inl (Overlapping j i) →
  shared p (Z.of_nat i, Z.of_nat j)
  ∧ Z.of_nat i ≤ N - 1 ∧ Z.of_nat j ≤ N - 1.
Proof.
  intros Hnd H.
  destruct (ShipsLockedSchema N p) as [| v d] eqn:Hschema;
    [| by rewrite validate_schema_error in H by (by rewrite Hschema)].
  pose proof (schema_accepts_well_shaped N p Hnd Hschema) as Hws.
  rewrite (validate_check_cells N p Hnd Hschema) in H. unfold check_cells in H.
  destruct (incr_all (cells_of p) (generateEmptyGridArray N)) as [e | g] eqn:Hg.
  { apply incr_all_error in Hg as ->. done. }
  unfold bind in H. destruct (scan_grid N 0 g 0) as [e | occ] eqn:Hscan;
    [| by case_decide].
  injection H as ->.
  apply scan_grid_inl in Hscan
    as [[? _] | (a & b & row & v & [= -> ->] & Ha & Hlen & Hb & Hv)]; [done |].
  destruct (populated_rows N p g Hws Hg) as [Hrows Hlook].
  rewrite (populated_lookup N p g a row b v Hlook Ha Hlen Hb) in Hv.
  simpl in Hv. apply Z.ltb_lt in Hv. split.
  - apply cover_shared; [done | lia].
  - apply lookup_lt_Some in Hb. apply Hlook in Ha as [Ha _]. lia.
Qed.

Lemma overlap_error_names_shared_cell_witness :
  NoDup (keys placement_edge_below_overlap)
  ∧ validateShipPlacement 10 placement_edge_below_overlap
    = inl (Overlapping 1 0)
  ∧ shared placement_edge_below_overlap (Z.of_nat 0, Z.of_nat 1)
  ∧ Z.of_nat 0 ≤ 10 - 1 ∧ Z.of_nat 1 ≤ 10 - 1.
Proof.
  assert (H1 : NoDup (keys placement_edge_below_overlap))
    by apply keys_NoDup_intro.
  assert (H2 : validateShipPlacement 10 placement_edge_below_overlap
               = inl (Overlapping 1 0)) by (by vm_compute).
  split; [exact H1 |]. split; [exact H2 |].
  exact (overlap_error_names_shared_cell 10 placement_edge_below_overlap 1 0
           H1 H2).
Defined.

(** X15: the verdict of acceptance does not depend on the order of the keys
    of the payload: a payload is returned without error exactly when any
    payload with the same entries in another order is. *)
Theorem acceptance_ignores_key_order N (p p' : Payload) :
  NoDup (keys p) → p ≡ₚ p' →
  validateShipPlacement N p = inr p ↔ validateShipPlacement N p' = inr p'.
Proof.
  assert (Hone : ∀ q q' : Payload, NoDup (keys q) → q ≡ₚ q' →
            validateShipPlacement N q = inr q →
            validateShipPlacement N q' = inr q').
  { intros q q' Hnd Hperm H.
    assert (Hnd' : NoDup (keys q')) by (unfold keys in *; by rewrite <- Hperm).
    assert (Hmem : ∀ e, e ∈ q' ↔ e ∈ q) by (intros e; by rewrite Hperm).
    apply accepted_characterised in H as (Hschema & Hin & Hno); [| done].
    apply accepted_characterised; [done |]. split; [| split].
    - unfold ShipsLockedSchema. apply app_nil. split.
      + assert (He : ∀ t, match get (ShipType_value t) q' with
                          | Some s => ShipSchema N [Key (ShipType_value t)] s
                          | None => [ {| v_path := [Key (ShipType_value t)];
                                         v_code := any_required |} ]
                          end = []).
        { intros t.
          destruct (ShipsLockedSchema_entry N q t Hschema) as (s & Hs & Hnil).
          apply get_Some_elem, Hmem in Hs.
          by rewrite (get_elem_NoDup _ _ _ Hnd' Hs). }
        cbn [ship_types fmap list_fmap concat]. by rewrite !He.
      + rewrite filter_nil_Forall; [done |].
        intros k Hk Hnin. apply Hnin.
        assert (Hk' : k ∈ keys q) by (unfold keys in *; by rewrite Hperm).
        destruct (ShipsLockedSchema_keys N q k Hschema Hk') as [t ->].
        apply list_elem_of_fmap. exists t. split; [done | apply ship_types_all].
    - intros t s r c Hts. apply Hin. by apply Hmem.
    - intros rc (t & t' & s & s' & Hne & H1 & H2 & Hc).
      apply (Hno rc). exists t, t', s, s'.
      split; [done |]. split; [by apply Hmem |]. split; [by apply Hmem | done]. }
  intros Hnd Hperm. split; [by apply Hone |].
  apply Hone; [| done]. unfold keys in *. by rewrite <- Hperm.
Qed.

Lemma acceptance_ignores_key_order_witness :
  NoDup (keys placement_ok)
  ∧ placement_ok ≡ₚ reverse placement_ok
  ∧ (validateShipPlacement 10 placement_ok = inr placement_ok
     ↔ validateShipPlacement 10 (reverse placement_ok)
       = inr (reverse placement_ok)).
Proof.
  assert (H1 : NoDup (keys placement_ok)) by apply keys_NoDup_intro.
  assert (H2 : placement_ok ≡ₚ reverse placement_ok)
    by (symmetry; apply reverse_Permutation).
  split; [exact H1 |]. split; [exact H2 |].
  exact (acceptance_ignores_key_order 10 placement_ok (reverse placement_ok)
           H1 H2).
Defined.

(** *** The schema errors *)

Lemma rejected_with N (p : Payload) v :
  v ∈ ShipsLockedSchema N p →
  validateShipPlacement N p = inl (ValidationError (ShipsLockedSchema N p)).
Proof.
  intros Hv. apply validate_schema_error. intros Hnil. rewrite Hnil in Hv.
  by apply elem_of_nil in Hv.
Qed.

(** X16: a payload without the entry of a ship type is refused with a schema
    error whose details hold the violation [any.required] under the key of
    that ship type, next to every other violation of the payload. *)
Theorem missing_type_rejected N (p : Payload) t :
  get (ShipType_value t) p = None →
  validateShipPlacement N p = inl (ValidationError (ShipsLockedSchema N p))
  ∧ {| v_path := [Key (ShipType_value t)]; v_code := any_required |}
    ∈ ShipsLockedSchema N p.
Proof.
  intros H. pose proof (schema_lists_missing N p t H) as Hv.
  split; [by eapply rejected_with | done].
Qed.

Lemma missing_type_rejected_witness :
  let p : Payload := [("Battleship", ship 0 0 Horizontal)] in
  get (ShipType_value Submarine) p = None
  ∧ validateShipPlacement 10 p
    = inl (ValidationError (ShipsLockedSchema 10 p))
  ∧ {| v_path := [Key (ShipType_value Submarine)]; v_code := any_required |}
    ∈ ShipsLockedSchema 10 p.
Proof.
  intros p. split; [reflexivity |].
  apply (missing_type_rejected 10 p Submarine). reflexivity.
Defined.

(** X17: a payload with a key that is not a ship type is refused with a
    schema error whose details hold the violation [object.unknown] under
    that key. *)
Theorem unknown_key_rejected N (p : Payload) k :
  k ∈ keys p → (∀ t, k ≠ ShipType_value t) →
  validateShipPlacement N p = inl (ValidationError (ShipsLockedSchema N p))
  ∧ {| v_path := [Key k]; v_code := object_unknown |} ∈ ShipsLockedSchema N p.
Proof.
  intros Hk Hun. pose proof (schema_lists_unknown N p k Hk Hun) as Hv.
  split; [by eapply rejected_with | done].
Qed.

Lemma unknown_key_rejected_witness :
  let p : Payload := placement_ok ++ [("Carrier", ship 5 5 Vertical)] in
  "Carrier" ∈ keys p ∧ (∀ t, "Carrier" ≠ ShipType_value t)
  ∧ validateShipPlacement 10 p
    = inl (ValidationError (ShipsLockedSchema 10 p))
  ∧ {| v_path := [Key "Carrier"]; v_code := object_unknown |}
    ∈ ShipsLockedSchema 10 p.
Proof.
  intros p.
  assert (H1 : "Carrier" ∈ keys p) by (do 3 right; left).
  assert (H2 : ∀ t, "Carrier" ≠ ShipType_value t) by (by intros []).
  split; [exact H1 |]. split; [exact H2 |].
  exact (unknown_key_rejected 10 p "Carrier" H1 H2).
Defined.

(** X18: a payload in which a component of an origin lies outside
    [0, N-1] is refused with a schema error whose details hold a violation
    under the path of that component (ship type, origin, index). *)
Theorem out_of_range_rejected N (p : Payload) t s i z :
  get (ShipType_value t) p = Some s → origin s !! i = Some z →
  ¬ (0 ≤ z ≤ N - 1) →
  validateShipPlacement N p = inl (ValidationError (ShipsLockedSchema N p))
  ∧ ∃ code,
      {| v_path := [Key (ShipType_value t); Key "origin"; Idx i];
         v_code := code |} ∈ ShipsLockedSchema N p.
Proof.
  intros Hget Hi Hz.
  destruct (schema_lists_out_of_range N p t s i z Hget Hi Hz) as [code Hv].
  split; [by eapply rejected_with | by exists code].
Qed.

Lemma out_of_range_rejected_witness :
  let p : Payload :=
    [("Battleship", ship 0 0 Horizontal); ("Destroyer", ship 0 10 Horizontal);
     ("Submarine", ship 0 2 Vertical)] in
  get (ShipType_value Destroyer) p = Some (ship 0 10 Horizontal)
  ∧ origin (ship 0 10 Horizontal) !! 1%nat = Some 10
  ∧ ¬ (0 ≤ 10 ≤ 10 - 1)
  ∧ validateShipPlacement 10 p
    = inl (ValidationError (ShipsLockedSchema 10 p))
  ∧ ∃ code,
      {| v_path := [Key (ShipType_value Destroyer); Key "origin"; Idx 1];
         v_code := code |} ∈ ShipsLockedSchema 10 p.
Proof.
  intros p.
  assert (H3 : ¬ (0 ≤ 10 ≤ 10 - 1)) by lia.
  split; [reflexivity |]. split; [reflexivity |]. split; [exact H3 |].
  exact (out_of_range_rejected 10 p Destroyer (ship 0 10 Horizontal) 1 10
           eq_refl eq_refl H3).
Defined.

(** X19: a payload in which an origin does not hold exactly two numbers is
    refused with a schema error whose details hold [array.min] or
    [array.max] under the origin of that ship. *)
Theorem origin_arity_rejected N (p : Payload) t s :
  get (ShipType_value t) p = Some s → length (origin s) ≠ 2%nat →
  validateShipPlacement N p = inl (ValidationError (ShipsLockedSchema N p))
  ∧ {| v_path := [Key (ShipType_value t); Key "origin"];
       v_code := if (length (origin s) <? 2)%nat then array_min
                 else array_max |} ∈ ShipsLockedSchema N p.
Proof.
  intros Hget Hlen.
  assert (Hv : {| v_path := [Key (ShipType_value t); Key "origin"];
                  v_code := if (length (origin s) <? 2)%nat then array_min
                            else array_max |} ∈ ShipsLockedSchema N p).
  { apply (ShipSchema_listed N p t s _ Hget).
    unfold ShipSchema, origin_schema. apply elem_of_app. left.
    apply elem_of_app. right. simpl.
    destruct (Nat.ltb_spec (length (origin s)) 2) as [Hlt | Hge].
    - apply elem_of_app. left. left.
    - simpl. destruct (Nat.ltb_spec 2 (length (origin s))); [left | lia]. }
  split; [by eapply rejected_with | done].
Qed.

Lemma origin_arity_rejected_witness :
  let s := {| origin := [1; 2; 3]; orientation := Vertical |} in
  let p : Payload := [("Battleship", s)] in
  get (ShipType_value Battleship) p = Some s ∧ length (origin s) ≠ 2%nat
  ∧ validateShipPlacement 10 p
    = inl (ValidationError (ShipsLockedSchema 10 p))
  ∧ {| v_path := [Key (ShipType_value Battleship); Key "origin"];
       v_code := if (length (origin s) <? 2)%nat then array_min
                 else array_max |} ∈ ShipsLockedSchema 10 p.
Proof.
  intros s p.
  assert (H2 : length (origin s) ≠ 2%nat) by (simpl; lia).
  split; [reflexivity |]. split; [exact H2 |].
  exact (origin_arity_rejected 10 p Battleship s eq_refl H2).
Defined.

(** X20: on a board whose size is a safe integer and over payloads with
    distinct keys, the validator ends with a schema error exactly for the
    payloads that are not of the shape the schema asks for: the three ship
    types as keys, every origin two numbers within the board, no orientation
    empty. *)
Theorem schema_error_iff N (p : Payload) :
  N - 1 ≤ MAX_SAFE_INTEGER → NoDup (keys p) →
  (∃ d, validateShipPlacement N p = inl (ValidationError d))
  ↔ ¬ well_shaped N p.
Proof.
  intros HN Hnd. split.
  - intros [d H] Hws.
    pose proof (well_shaped_schema_accepts N p HN Hnd Hws) as Hschema.
    rewrite (validate_check_cells N p Hnd Hschema) in H. unfold check_cells in H.
    destruct (incr_all (cells_of p) (generateEmptyGridArray N)) as [e | g] eqn:Hg.
    { apply incr_all_error in Hg as ->. done. }
    unfold bind in H. destruct (scan_grid N 0 g 0) as [e | occ] eqn:Hscan.
    + apply scan_grid_inl in Hscan as [[-> _] | (? & ? & ? & ? & -> & _)]; done.
    + by case_decide.
  - intros Hws. exists (ShipsLockedSchema N p). apply validate_schema_error.
    intros Hschema. apply Hws. by apply schema_accepts_well_shaped.
Qed.

Lemma schema_error_iff_witness :
  10 - 1 ≤ MAX_SAFE_INTEGER ∧ NoDup (keys placement_ok)
  ∧ ((∃ d, validateShipPlacement 10 placement_ok = inl (ValidationError d))
     ↔ ¬ well_shaped 10 placement_ok).
Proof.
  assert (H0 : 10 - 1 ≤ MAX_SAFE_INTEGER) by (unfold MAX_SAFE_INTEGER; lia).
  assert (H1 : NoDup (keys placement_ok)) by apply keys_NoDup_intro.
  split; [exact H0 |]. split; [exact H1 |].
  exact (schema_error_iff 10 placement_ok H0 H1).
Defined.

(** *** The population of the grid by one ship *)

Lemma populate_ship_cells t s x y (g : Grid) :
  origin s = [x; y] →
  populateGridWithShipData (getCellAreaWidthAndHeight_x (ShipSize t)) s g
  = incr_all (ship_cells t s) g.
Proof.
  intros Ho. rewrite size_of_ship. unfold populateGridWithShipData, ship_cells.
  rewrite Ho. by apply populate_loop_cells.
Qed.

(** X21: a ship whose cells all exist in the grid and hold numbers is
    written without error: the grid keeps its number of rows and the length
    of every row, each cell the ship covers holds one more than before, and
    every other number is as it was. *)
Theorem populate_ship_in_grid t s (g : Grid) :
  (∃ x y, origin s = [x; y]) →
  (∀ r c, covers t s r c →
     0 ≤ r ∧ 0 ≤ c
     ∧ ∃ row z, g !! Z.to_nat r = Some row
                ∧ row !! Z.to_nat c = Some (Some (Num z))) →
  ∃ g',
    populateGridWithShipData (getCellAreaWidthAndHeight_x (ShipSize t)) s g
    = inr g'
    ∧ length g' = length g
    ∧ ∀ i row, g !! i = Some row →
        ∃ row', g' !! i = Some row' ∧ length row' = length row
          ∧ ∀ j z, row !! j = Some (Some (Num z)) →
              (covers t s (Z.of_nat i) (Z.of_nat j) →
               row' !! j = Some (Some (Num (z + 1))))
              ∧ (¬ covers t s (Z.of_nat i) (Z.of_nat j) →
                 row' !! j = Some (Some (Num z))).
Proof.
  intros (x & y & Ho) Hcells. rewrite (populate_ship_cells t s x y g Ho).
  destruct (incr_all_rows (ship_cells t s) g) as (g' & Hg' & Hlen & Hrows).
  { intros [r c] Hrc. apply ship_cells_covers in Hrc.
    destruct (Hcells r c Hrc) as (Hr & _ & row & z & Hrow & _).
    apply lookup_lt_Some in Hrow. simpl. lia. }
  exists g'. split; [done |]. split; [done |].
  intros i row Hi. rewrite Hrows, Hi. simpl.
  eexists. split; [reflexivity |]. split.
  - apply row_fold_length_in. intros c Hc. apply cols_elem in Hc.
    apply ship_cells_covers in Hc.
    destruct (Hcells _ c Hc) as (_ & Hc0 & row1 & z & Hrow1 & Hz).
    rewrite Nat2Z.id, Hi in Hrow1. injection Hrow1 as <-.
    apply lookup_lt_Some in Hz. lia.
  - intros j z Hj. rewrite (row_fold_lookup _ _ j z Hj), hits_cols.
    rewrite cover_NoDup by apply ship_cells_NoDup.
    split; intros Hcov.
    + rewrite decide_True by (by apply ship_cells_covers). done.
    + rewrite decide_False by (by rewrite ship_cells_covers).
      by rewrite Z.add_0_r.
Qed.

Lemma populate_ship_in_grid_witness :
  let s := ship 1 0 Horizontal in
  let g : Grid := generateEmptyGridArray 3 in
  (∃ x y, origin s = [x; y])
  ∧ (∀ r c, covers Submarine s r c →
       0 ≤ r ∧ 0 ≤ c
       ∧ ∃ row z, g !! Z.to_nat r = Some row
                  ∧ row !! Z.to_nat c = Some (Some (Num z)))
  ∧ ∃ g',
      populateGridWithShipData (getCellAreaWidthAndHeight_x (ShipSize Submarine))
        s g = inr g'
      ∧ length g' = length g
      ∧ ∀ i row, g !! i = Some row →
          ∃ row', g' !! i = Some row' ∧ length row' = length row
            ∧ ∀ j z, row !! j = Some (Some (Num z)) →
                (covers Submarine s (Z.of_nat i) (Z.of_nat j) →
                 row' !! j = Some (Some (Num (z + 1))))
                ∧ (¬ covers Submarine s (Z.of_nat i) (Z.of_nat j) →
                   row' !! j = Some (Some (Num z))).
Proof.
  intros s g.
  assert (H1 : ∃ x y, origin s = [x; y]) by (by exists 1, 0).
  assert (H2 : ∀ r c, covers Submarine s r c →
             0 ≤ r ∧ 0 ≤ c
             ∧ ∃ row z, g !! Z.to_nat r = Some row
                        ∧ row !! Z.to_nat c = Some (Some (Num z))).
  { intros r c Hc. unfold_covers Hc. destruct Hc as [-> Hc].
    split; [lia |]. split; [lia |].
    exists (zero_row 3), 0. split; [reflexivity |].
    assert (Hcases : c = 1 ∨ c = 2) by lia.
    destruct Hcases as [-> | ->]; reflexivity. }
  split; [exact H1 |]. split; [exact H2 |].
  exact (populate_ship_in_grid Submarine s g H1 H2).
Defined.

(** X22: every orientation other than the value of [Horizontal], a
    misspelt one included, is laid out as [Vertical] is: along the rows. *)
Theorem upright_layout size s (g : Grid) :
  orientation s ≠ Horizontal →
  populateGridWithShipData size s g
  = populateGridWithShipData size
      {| origin := origin s; orientation := Vertical |} g.
Proof.
  intros Hor. unfold populateGridWithShipData.
  destruct size as [n |]; [| done].
  generalize (seqZ 0 n). intros steps. revert g.
  induction steps as [| i steps IH]; intros g; [done |].
  cbn [populate_loop].
  assert (Hc : cell_at s i
               = cell_at {| origin := origin s; orientation := Vertical |} i).
  { unfold cell_at. cbn [origin orientation].
    destruct (decide (orientation s = Horizontal)); [done |].
    by destruct (decide (Vertical = Horizontal)). }
  rewrite Hc.
  destruct (grid_incr _ _ g) as [e | g1]; unfold bind; [done | apply IH].
Qed.

Lemma upright_layout_witness :
  orientation (ship 0 0 "diagonal") ≠ Horizontal
  ∧ populateGridWithShipData (Num 4) (ship 0 0 "diagonal")
      (generateEmptyGridArray 10)
    = populateGridWithShipData (Num 4)
        {| origin := origin (ship 0 0 "diagonal"); orientation := Vertical |}
        (generateEmptyGridArray 10).
Proof.
  assert (H : orientation (ship 0 0 "diagonal") ≠ Horizontal) by done.
  split; [exact H |].
  exact (upright_layout (Num 4) (ship 0 0 "diagonal")
           (generateEmptyGridArray 10) H).
Defined.

Lemma row_incr_length_le c (row : Row) (M : nat) :
  c < Z.of_nat M → (length row ≤ M)%nat → (length (row_incr c row) ≤ M)%nat.
Proof.
  intros Hc Hl. unfold row_incr. destruct (Z.ltb_spec c 0); [done |].
  destruct (row !! Z.to_nat c) eqn:E.
  - by rewrite length_insert.
  - apply lookup_ge_None in E.
    rewrite !length_app, length_replicate. simpl. lia.
Qed.

Lemma row_fold_length_le cl (row : Row) (M : nat) :
  (∀ c, c ∈ cl → c < Z.of_nat M) → (length row ≤ M)%nat →
  (length (row_fold cl row) ≤ M)%nat.
Proof.
  revert row. induction cl as [| c cl IH]; intros row Hcl Hl; simpl; [done |].
  apply IH; [intros c' Hc'; apply Hcl; by right |].
  apply row_incr_length_le; [apply Hcl; left | done].
Qed.

(** X23: a horizontal ship whose last cell lies at or past the end of its
    row is written without error all the same: its row grows to end with
    the last cell of the ship, and the number of rows and the other rows are
    as they were. *)
Theorem populate_past_row_end t s x y (g : Grid) row :
  origin s = [x; y] → orientation s = Horizontal → 0 ≤ x → 0 ≤ y →
  g !! Z.to_nat y = Some row →
  Z.of_nat (length row) ≤ x + ship_length t - 1 →
  ∃ g' row',
    populateGridWithShipData (getCellAreaWidthAndHeight_x (ShipSize t)) s g
    = inr g'
    ∧ length g' = length g
    ∧ g' !! Z.to_nat y = Some row'
    ∧ Z.of_nat (length row') = x + ship_length t
    ∧ ∀ i, i ≠ Z.to_nat y → g' !! i = g !! i.
Proof.
  intros Ho Hh Hx Hy Hrow Hend. rewrite (populate_ship_cells t s x y g Ho).
  assert (Hcov : ∀ r c, (r, c) ∈ ship_cells t s
                        ↔ r = y ∧ x ≤ c ≤ x + ship_length t - 1).
  { intros r c. rewrite ship_cells_covers. unfold covers. split.
    - intros (x' & y' & Ho' & H). rewrite Ho in Ho'. injection Ho' as <- <-.
      by rewrite decide_True in H.
    - intros H. exists x, y. split; [done |]. by rewrite decide_True. }
  destruct (incr_all_rows (ship_cells t s) g) as (g' & Hg' & Hlen & Hrows).
  { intros [r c] Hrc. apply Hcov in Hrc as [-> _].
    apply lookup_lt_Some in Hrow. simpl. lia. }
  exists g', (row_fold (cols (Z.to_nat y) (ship_cells t s)) row).
  split; [done |]. split; [done |]. split; [by rewrite Hrows, Hrow |]. split.
  - assert (Hlast : x + ship_length t - 1 ∈ cols (Z.to_nat y) (ship_cells t s)).
    { apply cols_elem. rewrite Z2Nat.id by lia. apply Hcov.
      destruct t; simpl; lia. }
    pose proof (row_fold_length_gt _ row _ Hlast) as Hgt.
    pose proof (row_fold_length_le (cols (Z.to_nat y) (ship_cells t s)) row
                  (Z.to_nat (x + ship_length t))) as Hle.
    assert (Hlen' : (length (row_fold (cols (Z.to_nat y) (ship_cells t s)) row)
                     ≤ Z.to_nat (x + ship_length t))%nat).
    { apply Hle; [| lia]. intros c Hc. apply cols_elem in Hc.
      apply Hcov in Hc. lia. }
    destruct t; simpl in *; lia.
  - intros i Hi. rewrite Hrows.
    assert (Hnone : cols i (ship_cells t s) = []).
    { unfold cols. rewrite filter_nil_Forall; [done |].
      intros [r c] Hrc Hr. simpl in Hr. apply Hcov in Hrc as [-> _]. lia. }
    rewrite Hnone. by destruct (g !! i).
Qed.

Lemma populate_past_row_end_witness :
  let s := ship 8 0 Horizontal in
  let g : Grid := generateEmptyGridArray 10 in
  origin s = [8; 0] ∧ orientation s = Horizontal ∧ 0 ≤ 8 ∧ 0 ≤ 0
  ∧ g !! Z.to_nat 0 = Some (zero_row 10)
  ∧ Z.of_nat (length (zero_row 10)) ≤ 8 + ship_length Battleship - 1
  ∧ ∃ g' row',
      populateGridWithShipData
        (getCellAreaWidthAndHeight_x (ShipSize Battleship)) s g = inr g'
      ∧ length g' = length g
      ∧ g' !! Z.to_nat 0 = Some row'
      ∧ Z.of_nat (length row') = 8 + ship_length Battleship
      ∧ ∀ i, i ≠ Z.to_nat 0 → g' !! i = g !! i.
Proof.
  intros s g.
  assert (H3 : 0 ≤ 8) by lia. assert (H4 : 0 ≤ 0) by lia.
  assert (H6 : Z.of_nat (length (zero_row 10)) ≤ 8 + ship_length Battleship - 1)
    by (simpl; lia).
  split; [reflexivity |]. split; [reflexivity |]. split; [exact H3 |].
  split; [exact H4 |]. split; [reflexivity |]. split; [exact H6 |].
  exact (populate_past_row_end Battleship s 8 0 g (zero_row 10)
           eq_refl eq_refl H3 H4 eq_refl H6).
Defined.

End ValidationsMore.
